(** * EV charger / parking lot matching: a shallow embedding of
      [extract_ev_charger_data.py]

    Python strings are sequences of Unicode code points, Python values that
    may or may not be text are a small tagged union, exceptions are an error
    monad, the insertion-ordered [dict] is an association list, and the two
    regular expressions run on a small backtracking matcher with greedy
    quantifiers, tried at every start position from the left as [re.search]
    does. *)

From Stdlib Require Import String Ascii.
From Stdlib Require Import List NArith ZArith Bool Lia Sorted.
Import ListNotations.

Local Open Scope N_scope.

(** ** Text *)

(** One Unicode code point. *)
Definition char := N.

(** A Python [str]. *)
Definition str := list char.

(** Decoder turning the UTF-8 bytes of a literal of this file into code
    points; [pending] counts the continuation bytes still expected. *)
Fixpoint utf8_decode (s : string) (pending : nat) (acc : N) : str :=
  match s with
  | EmptyString => []
  | String a s' =>
      let b := N_of_ascii a in
      match pending with
      | O =>
          if b <? 128 then b :: utf8_decode s' 0 0
          else if b <? 224 then utf8_decode s' 1 (b - 192)
          else if b <? 240 then utf8_decode s' 2 (b - 224)
          else utf8_decode s' 3 (b - 240)
      | S O => (acc * 64 + (b - 128)) :: utf8_decode s' 0 0
      | S n => utf8_decode s' n (acc * 64 + (b - 128))
      end
  end.

Definition u (s : string) : str := utf8_decode s 0 0.

Definition str_eq_dec : forall a b : str, {a = b} + {a <> b} :=
  list_eq_dec N.eq_dec.

Definition str_eqb (a b : str) : bool :=
  if str_eq_dec a b then true else false.

(** [s.startswith(p)] *)
Fixpoint startswith (s p : str) {struct p} : bool :=
  match p with
  | [] => true
  | c :: p' =>
      match s with
      | [] => false
      | d :: s' => (d =? c) && startswith s' p'
      end
  end.

(** [needle in hay] for two strings. *)
Fixpoint contains (hay needle : str) : bool :=
  startswith hay needle
  || match hay with
     | [] => false
     | _ :: hay' => contains hay' needle
     end.

(** [s.replace(old, new)] for a non-empty [old]: every occurrence, scanning
    from the left without overlap.  [skip] counts the characters of an
    occurrence that was just replaced and are still to be dropped. *)
Fixpoint replace_from (old new s : str) (skip : nat) : str :=
  match s with
  | [] => []
  | c :: s' =>
      match skip with
      | S n => replace_from old new s' n
      | O =>
          if startswith s old
          then new ++ replace_from old new s' (length old - 1)
          else c :: replace_from old new s' 0
      end
  end.

(** [s.replace(old, new)]; with an empty [old] Python puts [new] before
    every character and at the end. *)
Definition replace (s old new : str) : str :=
  match old with
  | [] => new ++ flat_map (fun c => c :: new) s
  | _ => replace_from old new s 0
  end.

(** The literals of the source. *)
Definition long_province : str := Eval cbv in u "전라남도".
Definition short_province : str := Eval cbv in u "전남".
Definition dong_char : char := 0xB3D9.  (* 동 *)
Definition space_char : char := 32.
Definition hyphen_char : char := 45.
Definition underscore_char : char := 95.
Definition culture_health : str := Eval cbv in u "문화건강".
Definition swimming_pool : str := Eval cbv in u "수영장".
Definition marker_DC : str := Eval cbv in u "DC".
Definition marker_AC : str := Eval cbv in u "AC".
Definition fast_word : str := Eval cbv in u "급속".
Definition slow_word : str := Eval cbv in u "완속".
Definition unavailable_word : str := Eval cbv in u "이용불가".
Definition free_word : str := Eval cbv in u "무료".
Definition common_words : list str :=
  Eval cbv in
    map u ["주차장"; "공영주차장"; "공영"; "주차"; "제"; "동"; "지구"; "타워";
           "수영장"]%string.

(** Python's character tables on the Basic Latin and Hangul Syllables
    blocks (and the Unicode white space), where the strings of the registry
    and of the examples below live.  The development itself is parametric
    in the three tables. *)
Definition kr_isdecimal (c : char) : bool := (48 <=? c) && (c <=? 57).

Definition kr_isalnum (c : char) : bool :=
  kr_isdecimal c
  || ((65 <=? c) && (c <=? 90))
  || ((97 <=? c) && (c <=? 122))
  || ((0xAC00 <=? c) && (c <=? 0xD7A3)).

Definition kr_isspace (c : char) : bool :=
  ((9 <=? c) && (c <=? 13))
  || ((28 <=? c) && (c <=? 32))
  || existsb (N.eqb c)
       [0x85; 0xA0; 0x1680; 0x2028; 0x2029; 0x202F; 0x205F; 0x3000]
  || ((0x2000 <=? c) && (c <=? 0x200A)).

(** ** Values and exceptions *)

(** What a cell of the charger feed can hold: text, [None], or the float
    [nan] that the feed reader leaves for an empty cell. *)
Inductive pyval : Type :=
| VStr (s : str)
| VNone
| VNaN.

Inductive exn : Type := KeyError | TypeError | AttributeError.

Inductive res (A : Type) : Type :=
| Ok (a : A)
| Raise (e : exn).
Arguments Ok {A} a.
Arguments Raise {A} e.

Definition bind {A B : Type} (m : res A) (k : A -> res B) : res B :=
  match m with
  | Ok a => k a
  | Raise e => Raise e
  end.

Notation "x <- m ;; k" := (bind m (fun x => k))
  (at level 61, m at next level, right associativity).

(** Truth value of a Python value: [None] and [''] are false, [nan] is
    true. *)
Definition truthy (v : pyval) : bool :=
  match v with
  | VStr [] => false
  | VStr _ => true
  | VNone => false
  | VNaN => true
  end.

Definition none_text : str := Eval cbv in u "None".
Definition nan_text : str := Eval cbv in u "nan".

(** [str(v)] *)
Definition py_str (v : pyval) : str :=
  match v with
  | VStr s => s
  | VNone => none_text
  | VNaN => nan_text
  end.

(** [needle in v] with a text [needle]: a [TypeError] unless [v] is text. *)
Definition py_in (needle : str) (v : pyval) : res bool :=
  match v with
  | VStr s => Ok (contains s needle)
  | _ => Raise TypeError
  end.

(** Truth value of an optional string ([None] or a [str]). *)
Definition truthy_opt (o : option str) : bool :=
  match o with
  | Some (_ :: _) => true
  | _ => false
  end.

(** ** Regular expressions *)

(** The pattern language the source needs: literals, greedy repetition of
    a character class, and group boundaries. *)
Inductive atom : Type :=
| Lit (c : char)
| Many0 (cls : char -> bool)
| Many1 (cls : char -> bool)
| Mark.

(** Greedy repetition: take one more character of the class when there is
    one and the rest of the pattern then matches, otherwise give back. *)
Fixpoint greedy (cls : char -> bool) (k : str -> option (list str)) (s : str)
  : option (list str) :=
  match s with
  | c :: s' =>
      if cls c
      then match greedy cls k s' with
           | Some r => Some r
           | None => k s
           end
      else k s
  | [] => k s
  end.

(** Match the pattern at the start of [s].  The result lists, for every
    group boundary in pattern order, the input that was left at it. *)
Fixpoint match_here (p : list atom) (s : str) : option (list str) :=
  match p with
  | [] => Some []
  | Mark :: p' => option_map (cons s) (match_here p' s)
  | Lit c :: p' =>
      match s with
      | d :: s' => if d =? c then match_here p' s' else None
      | [] => None
      end
  | Many0 cls :: p' => greedy cls (match_here p') s
  | Many1 cls :: p' =>
      match s with
      | d :: s' => if cls d then greedy cls (match_here p') s' else None
      | [] => None
      end
  end.

(** [re.search]: the first start position, from the left, with a match. *)
Fixpoint re_search (p : list atom) (s : str) : option (list str) :=
  match match_here p s with
  | Some r => Some r
  | None =>
      match s with
      | [] => None
      | _ :: s' => re_search p s'
      end
  end.

(** The text between two boundaries, [from] being the earlier one. *)
Definition between (from to : str) : str :=
  firstn (length from - length to) from.

Section Matching.

(** Python's [str.isalnum], [str.isdecimal] and [str.isspace] tables. *)
Variables isalnum isdecimal isspace : char -> bool.

(** [\w], [\d], [\s] and [[-\d]] *)
Definition re_w (c : char) : bool := isalnum c || (c =? underscore_char).
Definition re_d (c : char) : bool := isdecimal c.
Definition re_s (c : char) : bool := isspace c.
Definition re_hyphen_d (c : char) : bool := (c =? hyphen_char) || isdecimal c.

(** The pattern of [extract_dong_from_address]:  ( \w+ 동 )  *)
Definition dong_pattern : list atom :=
  [Mark; Many1 re_w; Lit dong_char; Mark].

(** The pattern of [extract_address_number]:
    ( \w+ 동 ) \s* ( \d+ [-\d]* )  *)
Definition lot_number_pattern : list atom :=
  [Mark; Many1 re_w; Lit dong_char; Mark; Many0 re_s;
   Mark; Many1 re_d; Many0 re_hyphen_d; Mark].

(** ** Address functions *)

Definition normalize_address (address : pyval) : res str :=
  if negb (truthy address) then Ok []
  else
    match address with
    | VStr a =>
        if startswith a long_province
        then Ok (replace a long_province short_province)
        else if startswith a short_province then Ok a
        else Ok a
    | _ => Raise AttributeError
    end.

Definition extract_dong_from_address (address : pyval) : res (option str) :=
  if negb (truthy address) then Ok None
  else
    match address with
    | VStr a =>
        match re_search dong_pattern a with
        | Some [g1; e1] => Ok (Some (between g1 e1))
        | _ => Ok None
        end
    | _ => Raise TypeError
    end.

Definition extract_address_number (address : pyval) : res (option str) :=
  if negb (truthy address) then Ok None
  else
    match address with
    | VStr a =>
        match re_search lot_number_pattern a with
        | Some [g1; e1; g2; e2] =>
            Ok (Some (between g1 e1 ++ [space_char] ++ between g2 e2))
        | _ => Ok None
        end
    | _ => Raise TypeError
    end.

(** ** Dictionaries

    A Python [dict] keeps its keys in the order of their first insertion;
    assigning to a key that is present replaces the value in place. *)

Definition dict (V : Type) : Type := list (str * V).

Fixpoint dict_get {V : Type} (d : dict V) (k : str) : option V :=
  match d with
  | [] => None
  | (k', v) :: d' => if str_eqb k' k then Some v else dict_get d' k
  end.

Fixpoint dict_set {V : Type} (d : dict V) (k : str) (v : V) : dict V :=
  match d with
  | [] => [(k, v)]
  | (k', v') :: d' =>
      if str_eqb k' k then (k', v) :: d' else (k', v') :: dict_set d' k v
  end.

Definition dict_mem {V : Type} (d : dict V) (k : str) : bool :=
  match dict_get d k with
  | Some _ => true
  | None => false
  end.

Definition dict_keys {V : Type} (d : dict V) : list str := map fst d.

(** A [for] loop whose body may raise. *)
Fixpoint for_each {A S : Type} (l : list A) (s : S) (body : S -> A -> res S)
  : res S :=
  match l with
  | [] => Ok s
  | a :: l' => s' <- body s a ;; for_each l' s' body
  end.

(** ** Data *)

(** One record of the charger feed: a [dict] from field name to value. *)
Definition charger : Type := list (string * pyval).

Fixpoint lookup (c : charger) (key : string) : option pyval :=
  match c with
  | [] => None
  | (k, v) :: c' => if String.eqb k key then Some v else lookup c' key
  end.

(** [c[key]] *)
Definition subscript (c : charger) (key : string) : res pyval :=
  match lookup c key with
  | Some v => Ok v
  | None => Raise KeyError
  end.

(** [c.get(key, default)] *)
Definition get (c : charger) (key : string) (default : pyval) : pyval :=
  match lookup c key with
  | Some v => v
  | None => default
  end.

(** A lot of the registry: (name, total spaces, address, type, price,
    charger note). *)
Definition lot_tuple : Type := (str * Z * str * str * str * str)%type.

(** The registry ([DONGS_DATA]): per dong, its lots. *)
Definition registry : Type := list (str * list lot_tuple).

(** A value of [parking_dict]. *)
Record lot_info : Type := {
  dong_name : str;
  address : str;
  address_number : option str
}.

(** One element of a lot's [chargers] list in the result. *)
Record entry : Type := {
  charger_name : pyval;
  charge_type : str;
  is_available : bool;
  cost : str;
  capacity : pyval;
  available_time : pyval;
  facility_type : pyval;
  convenience : pyval
}.

(** A value of the result. *)
Record lot_chargers : Type := {
  has_charger : bool;
  chargers : list entry
}.

(** ** Scoring one charger against one lot *)

(** [s.split()]: the maximal runs of characters that are not white space. *)
Fixpoint split_from (s : str) (cur : str) : list str :=
  match s with
  | [] => match cur with [] => [] | _ => [rev cur] end
  | c :: s' =>
      if isspace c
      then match cur with
           | [] => split_from s' []
           | _ => rev cur :: split_from s' []
           end
      else split_from s' (c :: cur)
  end.

Definition split (s : str) : list str := split_from s [].

(** [charger_dong != lot_dong], the left side being [None] or text. *)
Definition dong_differs (charger_dong : option str) (lot_dong : str) : bool :=
  match charger_dong with
  | Some d => negb (str_eqb d lot_dong)
  | None => true
  end.

(** [a == b] for two optional strings. *)
Definition opt_eqb (a b : option str) : bool :=
  match a, b with
  | Some x, Some y => str_eqb x y
  | None, None => true
  | _, _ => false
  end.

(** [n in hay] for a lot number that passed its truth test. *)
Definition number_in (n : option str) (hay : str) : bool :=
  match n with
  | Some x => contains hay x
  | None => false
  end.

(** The running best match of the inner loop: [best_match], [best_score]. *)
Definition best : Type := (option str * Z)%type.

(** The closing test of an iteration. *)
Definition keep_best (b : best) (lot_name : str) (score : Z) : best :=
  if (snd b <? score)%Z && (60 <=? score)%Z then (Some lot_name, score) else b.

(** Lines 125-132: the two name tests. *)
Definition name_in_charger (lot_name charger_name : str) : bool :=
  contains charger_name lot_name || contains lot_name charger_name.

Definition lot_name_keywords (lot_name : str) : list str :=
  filter (fun kw => negb (existsb (str_eqb kw) common_words)
                    && (2 <=? length kw)%nat)
         (split lot_name).

Definition keyword_test (lot_name charger_name : str) : bool :=
  (0 <? length (lot_name_keywords lot_name))%nat
  && existsb (fun kw => contains charger_name kw) (lot_name_keywords lot_name).

(** Lines 147-168: the dong gate, the three address rules and the closing
    test, from a score of 0.  The result is the score of the pair at the
    end of the iteration and the running best after it. *)
Definition address_rules (charger_address : str)
    (charger_dong charger_address_number : option str)
    (lot_name : str) (info : lot_info)
    (lot_name_in_charger keyword_match : bool) (b : best) : Z * best :=
  let lot_dong := dong_name info in
  let lot_address := address info in
  let lot_address_number := address_number info in
  let score := 0%Z in
  if dong_differs charger_dong lot_dong then (score, b)
  else
    let score :=
      if str_eqb lot_address charger_address then (score + 100)%Z
      else if truthy_opt charger_address_number
              && truthy_opt lot_address_number
      then
        if opt_eqb charger_address_number lot_address_number
        then if lot_name_in_charger || keyword_match
             then (score + 80)%Z else score
        else score
      else score in
    let score :=
      if truthy_opt lot_address_number
         && number_in lot_address_number charger_address
      then if lot_name_in_charger || keyword_match
           then (score + 60)%Z else score
      else score in
    (score, keep_best b lot_name score).

(** Lines 123-168 for a text charger name. *)
Definition score_pair (charger_name charger_address : str)
    (charger_dong charger_address_number : option str)
    (lot_name : str) (info : lot_info) (b : best) : Z * best :=
  let lot_dong := dong_name info in
  let lot_address := address info in
  let score := 0%Z in
  let lot_name_in_charger := name_in_charger lot_name charger_name in
  let keyword_match := keyword_test lot_name charger_name in
  let rules := address_rules charger_address charger_dong
                 charger_address_number lot_name info lot_name_in_charger in
  if contains lot_name culture_health && contains charger_name culture_health
  then
    let keyword_match := true in
    if dong_differs charger_dong lot_dong
    then
      if contains charger_address swimming_pool
         || contains lot_address swimming_pool
      then
        let score := (score + 70)%Z in
        (score, keep_best b lot_name score)
      else rules keyword_match b
    else rules keyword_match b
  else rules keyword_match b.

(** One iteration of the inner loop.  [lot_name in charger_name] raises a
    [TypeError] when the charger name is not text. *)
Definition score_lot (c : charger) (charger_address : str)
    (charger_dong charger_address_number : option str)
    (b : best) (item : str * lot_info) : res (Z * best) :=
  let '(lot_name, info) := item in
  v <- subscript c "charger_name" ;;
  match v with
  | VStr charger_name =>
      Ok (score_pair charger_name charger_address charger_dong
            charger_address_number lot_name info b)
  | _ => Raise TypeError
  end.

(** ** The matching run *)

(** Lines 95-103: [parking_dict]. *)
Definition index_lot (dong : str) (d : dict lot_info) (lot : lot_tuple)
  : res (dict lot_info) :=
  let '(lot_name, total_spaces, address, parking_type, price_info,
        charger_info) := lot in
  normalized_address <- normalize_address (VStr address) ;;
  number <- extract_address_number (VStr normalized_address) ;;
  Ok (dict_set d lot_name
        {| dong_name := dong;
           address := normalized_address;
           address_number := number |}).

Definition build_parking_dict (parking_lots : registry)
  : res (dict lot_info) :=
  for_each parking_lots []
    (fun d group => for_each (snd group) d (index_lot (fst group))).

(** Lines 109-168: the best lot of one charger. *)
Definition best_lot (parking_dict : dict lot_info) (c : charger) : res best :=
  v <- subscript c "address" ;;
  charger_address <- normalize_address v ;;
  charger_dong <- extract_dong_from_address (VStr charger_address) ;;
  charger_address_number <- extract_address_number (VStr charger_address) ;;
  for_each parking_dict (None, 0%Z)
    (fun b item =>
       r <- score_lot c charger_address charger_dong charger_address_number
              b item ;;
       Ok (snd r)).

(** [a or b] on tests that may raise: [b] is not evaluated when [a] holds. *)
Definition or_else (a b : res bool) : res bool :=
  x <- a ;; if x then Ok true else b.

(** Lines 181-186. *)
Definition classify_charge_type (charger_type capacity : pyval) : res str :=
  fast <- or_else (py_in marker_DC charger_type)
            (or_else (py_in fast_word capacity)
               (Ok (contains (py_str capacity) fast_word))) ;;
  if fast then Ok fast_word
  else
    slow <- or_else (py_in marker_AC charger_type)
              (or_else (py_in slow_word capacity)
                 (Ok (contains (py_str capacity) slow_word))) ;;
    if slow then Ok slow_word else Ok fast_word.

(** Lines 177-206: the entry appended for a matched charger. *)
Definition make_entry (c : charger) : res entry :=
  charger_type <- subscript c "charger_type" ;;
  let capacity := get c "capacity" (VStr []) in
  charge_type <- classify_charge_type charger_type capacity ;;
  let available_time := get c "available_time" (VStr []) in
  let is_available :=
    negb (truthy available_time
          && contains (py_str available_time) unavailable_word) in
  let cost := free_word in
  name <- subscript c "charger_name" ;;
  Ok {| charger_name := name;
        charge_type := charge_type;
        is_available := is_available;
        cost := cost;
        capacity := capacity;
        available_time := available_time;
        facility_type := get c "facility_type" (VStr []);
        convenience := get c "convenience" (VStr []) |}.

(** [matched[k]['chargers'].append(e)] *)
Definition append_entry (matched : dict lot_chargers) (k : str) (e : entry)
  : res (dict lot_chargers) :=
  match dict_get matched k with
  | Some v =>
      Ok (dict_set matched k
            {| has_charger := has_charger v; chargers := chargers v ++ [e] |})
  | None => Raise KeyError
  end.

(** Lines 109-206: one iteration of the outer loop. *)
Definition match_one (parking_dict : dict lot_info)
    (matched : dict lot_chargers) (c : charger) : res (dict lot_chargers) :=
  b <- best_lot parking_dict c ;;
  match fst b with
  | Some best_match =>
      if truthy (VStr best_match)
      then
        let matched :=
          if dict_mem matched best_match then matched
          else dict_set matched best_match
                 {| has_charger := true; chargers := [] |} in
        e <- make_entry c ;;
        append_entry matched best_match e
      else Ok matched
  | None => Ok matched
  end.

Definition match_charger_to_parking_lot (chargers : list charger)
    (parking_lots : registry) : res (dict lot_chargers) :=
  parking_dict <- build_parking_dict parking_lots ;;
  for_each chargers [] (match_one parking_dict).

(** ** Reference notions used by the statements *)

(** The charge type as the specification words it: the availability-time
    descriptor is consulted next to the capacity descriptor. *)
Definition spec_charge_type (charger_type capacity available_time : str)
  : str :=
  if contains charger_type marker_DC
     || contains capacity fast_word || contains available_time fast_word
  then fast_word
  else if contains charger_type marker_AC
          || contains capacity slow_word || contains available_time slow_word
  then slow_word
  else fast_word.

(** What it means for a pattern to match at the start of an input, with
    no priority between the ways to match: the third argument lists the
    input left at every group boundary. *)
Inductive pm : list atom -> str -> list str -> Prop :=
| pm_nil s : pm [] s []
| pm_mark p s ms : pm p s ms -> pm (Mark :: p) s (s :: ms)
| pm_lit c p s ms : pm p s ms -> pm (Lit c :: p) (c :: s) ms
| pm_many0 cls p x s ms :
    forallb cls x = true -> pm p s ms -> pm (Many0 cls :: p) (x ++ s) ms
| pm_many1 cls p x s ms :
    x <> [] -> forallb cls x = true -> pm p s ms ->
    pm (Many1 cls :: p) (x ++ s) ms.

(** An occurrence of a lot number in [a]: after [pre], a dong token (word
    characters [tok], then 동), white space [ws] that may be empty, and the
    designator [num], a digit followed by digits and hyphens. *)
Definition lot_occurrence (a pre tok ws num post : str) : Prop :=
  a = pre ++ tok ++ [dong_char] ++ ws ++ num ++ post
  /\ tok <> []
  /\ forallb re_w tok = true
  /\ forallb re_s ws = true
  /\ exists d ds,
       num = d :: ds /\ re_d d = true /\ forallb re_hyphen_d ds = true.

(** The same with the white space the specification asks for. *)
Definition spaced_lot_occurrence (a pre tok ws num post : str) : Prop :=
  lot_occurrence a pre tok ws num post /\ ws <> [].

(** The score of a pair, as the inner loop computes it. *)
Definition pair_score (charger_name charger_address : str)
    (charger_dong charger_address_number : option str)
    (item : str * lot_info) : Z :=
  fst (score_pair charger_name charger_address charger_dong
         charger_address_number (fst item) (snd item) (None, 0%Z)).


(** What the outer loop derives from a charger before scoring it. *)
Definition derived (c : charger) (charger_name charger_address : str)
    (charger_dong charger_address_number : option str) : Prop :=
  subscript c "charger_name" = Ok (VStr charger_name)
  /\ exists v,
       subscript c "address" = Ok v
       /\ normalize_address v = Ok charger_address
       /\ extract_dong_from_address (VStr charger_address) = Ok charger_dong
       /\ extract_address_number (VStr charger_address)
          = Ok charger_address_number.

(** Lot [L] wins for a charger with score [s]: it reaches the threshold, no
    lot before it in the order of [parking_dict] scores as much, and no lot
    after it scores more. *)
Definition wins (charger_name charger_address : str)
    (charger_dong charger_address_number : option str)
    (parking_dict : dict lot_info) (L : str) (info : lot_info) (s : Z)
  : Prop :=
  let score := pair_score charger_name charger_address charger_dong
                 charger_address_number in
  exists before after,
    parking_dict = before ++ (L, info) :: after
    /\ score (L, info) = s
    /\ (60 <= s)%Z
    /\ (forall it, In it before -> (score it < s)%Z)
    /\ (forall it, In it after -> (score it <= s)%Z).

(** The name of a registry lot. *)
Definition tuple_name (lot : lot_tuple) : str :=
  let '(lot_name, _, _, _, _, _) := lot in lot_name.

(** A lot called [L] stands in the registry under dong [dong]. *)
Definition registered (parking_lots : registry) (L dong : str) : Prop :=
  exists lots lot,
    In (dong, lots) parking_lots /\ In lot lots /\ tuple_name lot = L.

(** A charger record whose name, address, type code and capacity are
    text. *)
Definition text_charger (c : charger) : Prop :=
  (exists s, lookup c "charger_name" = Some (VStr s))
  /\ (exists s, lookup c "address" = Some (VStr s))
  /\ (exists s, lookup c "charger_type" = Some (VStr s))
  /\ (exists s, get c "capacity" (VStr []) = VStr s).

(** The running best [b] after the lots [seen]: nothing yet and no lot at
    the threshold, or the winner among them. *)
Definition selected (cn ca : str) (cd can : option str)
    (seen : dict lot_info) (b : best) : Prop :=
  (b = (None, 0%Z)
   /\ forall it, In it seen -> (pair_score cn ca cd can it < 60)%Z)
  \/ exists L info, fst b = Some L /\ wins cn ca cd can seen L info (snd b).

(** Every key and every entry of [m] comes from a charger of [cs] whose
    best lot is that key. *)
Definition traced (pd : dict lot_info) (cs : list charger)
    (m : dict lot_chargers) : Prop :=
  (forall L, In L (dict_keys m) ->
     exists c s, In c cs /\ best_lot pd c = Ok (Some L, s))
  /\ (forall L v e, dict_get m L = Some v -> In e (chargers v) ->
        exists c s,
          In c cs /\ best_lot pd c = Ok (Some L, s) /\ make_entry c = Ok e).

(** ** Sample data

    An excerpt of the registry and chargers in the shape of the feed. *)

Definition sample_lots : registry :=
  [(u "조례동",
    [(u "수매골 공영주차장", 54%Z, u "전남 순천시 조례동 1807",
      u "무료", u "무료", u "🔌O(급속 1개)")]);
   (u "석현동",
    [(u "문화건강센터 수영장", 139%Z, u "전남 순천시 석현동 35-10",
      u "유료", u "최초 2시간30분 무료, 그후 30분당 500원", u "🔌O(급속 3개)");
     (u "문화센터 주차장", 89%Z, u "전남 순천시 석현동 35-6",
      u "유료", u "최초 2시간30분 무료, 그후 30분당 500원", u "🔌X")])].

Definition sumaegol : str := Eval cbv in u "수매골 공영주차장".

Definition sumaegol_info : lot_info :=
  {| dong_name := u "조례동";
     address := u "전남 순천시 조례동 1807";
     address_number := Some (u "조례동 1807") |}.

Definition pool_lot : str := Eval cbv in u "문화건강센터 수영장".

Definition pool_info : lot_info :=
  {| dong_name := u "석현동";
     address := u "전남 순천시 석현동 35-10";
     address_number := Some (u "석현동 35-10") |}.

(** A fast charger at the address of the first lot, written with the long
    form of the province. *)
Definition charger_sumaegol : charger :=
  [("charger_name", VStr (u "수매골 공영주차장 충전소"));
   ("address", VStr (u "전라남도 순천시 조례동 1807"));
   ("charger_type", VStr (u "DC콤보"));
   ("capacity", VStr (u "급속(50kW)"));
   ("available_time", VStr (u "24시간 이용가능"));
   ("facility_type", VStr (u "공영주차장"));
   ("convenience", VStr [])]%string.

(** The same charger with an empty capacity cell in the feed. *)
Definition charger_empty_capacity : charger :=
  [("charger_name", VStr (u "수매골 공영주차장 충전소"));
   ("address", VStr (u "전라남도 순천시 조례동 1807"));
   ("charger_type", VStr (u "AC3상"));
   ("capacity", VNaN);
   ("available_time", VStr (u "24시간 이용가능"));
   ("facility_type", VStr (u "공영주차장"));
   ("convenience", VStr [])]%string.

(** The same charger from a record without the type code. *)
Definition charger_without_type : charger :=
  [("charger_name", VStr (u "수매골 공영주차장 충전소"));
   ("address", VStr (u "전라남도 순천시 조례동 1807"));
   ("available_time", VStr (u "24시간 이용가능"))]%string.

(** A charger whose only speed hint stands in the availability time. *)
Definition charger_hint_in_time : charger :=
  [("charger_name", VStr (u "수매골 공영주차장 충전소"));
   ("address", VStr (u "전남 순천시 조례동 1807"));
   ("charger_type", VStr (u "B타입(5핀)"));
   ("capacity", VStr (u "7kW"));
   ("available_time", VStr (u "24시간 이용가능(완속)"));
   ("facility_type", VStr (u "공영주차장"));
   ("convenience", VStr [])]%string.

(** An occurrence of a dong token in [a]: after [pre], the word characters
    [tok] and then 동. *)
Definition dong_occurrence (a pre tok post : str) : Prop :=
  a = pre ++ tok ++ [dong_char] ++ post
  /\ tok <> []
  /\ forallb re_w tok = true.

(** The entries the result holds for lot [L]. *)
Definition entries_of (m : dict lot_chargers) (L : str) : list entry :=
  match dict_get m L with
  | Some v => chargers v
  | None => []
  end.

(** What charger [c] adds under lot [L]: its entry when [L] is its best
    lot, nothing otherwise. *)
Definition won_entry (pd : dict lot_info) (L : str) (c : charger)
  : list entry :=
  match best_lot pd c, make_entry c with
  | Ok (Some best_match, _), Ok e =>
      if truthy (VStr best_match) && str_eqb best_match L then [e] else []
  | _, _ => []
  end.

(** The address of a registry lot. *)
Definition tuple_address (lot : lot_tuple) : str :=
  let '(_, _, address, _, _, _) := lot in address.

(** ** The feed reader and the accessors of [parking_data.py] *)

(** [read_ev_charger_csv], lines 57-68: the charger made from one row of
    the data frame.  A row is a mapping from column name to cell. *)
Definition charger_of_row (row : charger) : res charger :=
  name <- subscript row "충전소" ;;
  cell <- subscript row "주소" ;;
  normalized <- normalize_address cell ;;
  charger_type <- subscript row "충전기타입" ;;
  capacity <- subscript row "충전용량" ;;
  available_time <- subscript row "이용가능시간" ;;
  facility_type <- subscript row "시설구분(대)" ;;
  Ok [("charger_name", name);
      ("address", VStr normalized);
      ("charger_type", charger_type);
      ("capacity", capacity);
      ("available_time", available_time);
      ("facility_type", facility_type);
      ("convenience", get row " 편의제공" (VStr []))]%string.

(** [read_ev_charger_csv], lines 54-75.  [frame] is what [pd.read_csv]
    gives for the file: the rows of the data frame, or an exception.  Any
    exception, of the file read or of a row, ends in the empty list. *)
Definition read_ev_charger_csv (frame : res (list charger)) : list charger :=
  match
    (df <- frame ;;
     for_each df []
       (fun chargers row => c <- charger_of_row row ;; Ok (chargers ++ [c])))
  with
  | Ok chargers => chargers
  | Raise _ => []
  end.

(** [load_ev_charger_data]: the value it stores in [EV_CHARGER_DATA] and
    returns.  [DONGS_DATA] is the registry at the time of the call. *)
Definition load_ev_charger_data (frame : res (list charger))
    (DONGS_DATA : registry) : dict lot_chargers :=
  match
    match_charger_to_parking_lot (read_ev_charger_csv frame) DONGS_DATA
  with
  | Ok matched => matched
  | Raise _ => []
  end.

(** The opening of every accessor: [EV_CHARGER_DATA] after
    [if not EV_CHARGER_DATA: load_ev_charger_data()]. *)
Definition ensure_loaded (frame : res (list charger)) (DONGS_DATA : registry)
    (EV_CHARGER_DATA : dict lot_chargers) : dict lot_chargers :=
  match EV_CHARGER_DATA with
  | [] => load_ev_charger_data frame DONGS_DATA
  | _ => EV_CHARGER_DATA
  end.

(** [get_ev_charger_info]: the result and [EV_CHARGER_DATA] after the
    call. *)
Definition get_ev_charger_info (frame : res (list charger))
    (DONGS_DATA : registry) (EV_CHARGER_DATA : dict lot_chargers)
    (lot_name : str) : option lot_chargers * dict lot_chargers :=
  let EV_CHARGER_DATA := ensure_loaded frame DONGS_DATA EV_CHARGER_DATA in
  (dict_get EV_CHARGER_DATA lot_name, EV_CHARGER_DATA).

(** An element of the list of [get_parking_lots_with_chargers]. *)
Record listed_lot : Type := {
  listed_dong_name : str;
  listed_lot_name : str;
  listed_total_spaces : Z;
  listed_address : str;
  listed_parking_type : str;
  listed_price_info : str;
  listed_charger_info : lot_chargers
}.

(** The body of the inner loop of [get_parking_lots_with_chargers]. *)
Definition list_lot (EV_CHARGER_DATA : dict lot_chargers) (dong : str)
    (lot : lot_tuple) : list listed_lot :=
  let '(lot_name, total_spaces, address, parking_type, price_info,
        charger_info_text) := lot in
  match dict_get EV_CHARGER_DATA lot_name with
  | Some charger_info =>
      if has_charger charger_info
      then [{| listed_dong_name := dong;
               listed_lot_name := lot_name;
               listed_total_spaces := total_spaces;
               listed_address := address;
               listed_parking_type := parking_type;
               listed_price_info := price_info;
               listed_charger_info := charger_info |}]
      else []
  | None => []
  end.

Definition get_parking_lots_with_chargers (frame : res (list charger))
    (DONGS_DATA : registry) (EV_CHARGER_DATA : dict lot_chargers)
  : list listed_lot * dict lot_chargers :=
  let EV_CHARGER_DATA := ensure_loaded frame DONGS_DATA EV_CHARGER_DATA in
  (flat_map
     (fun group => flat_map (list_lot EV_CHARGER_DATA (fst group)) (snd group))
     DONGS_DATA,
   EV_CHARGER_DATA).

(** [a < b] on strings: code point by code point. *)
Fixpoint str_ltb (a b : str) : bool :=
  match a, b with
  | [], [] => false
  | [], _ :: _ => true
  | _ :: _, [] => false
  | x :: a', y :: b' => (x <? y) || ((x =? y) && str_ltb a' b')
  end.

Fixpoint insert_sorted (x : str) (l : list str) : list str :=
  match l with
  | [] => [x]
  | y :: l' =>
      if str_ltb x y then x :: l
      else if str_eqb x y then l
      else y :: insert_sorted x l'
  end.

(** [sorted(list(set(l)))]: the distinct elements of [l] in increasing
    order. *)
Definition sorted_set (l : list str) : list str :=
  fold_right insert_sorted [] l.

Definition get_dongs_with_chargers (frame : res (list charger))
    (DONGS_DATA : registry) (EV_CHARGER_DATA : dict lot_chargers)
  : list str * dict lot_chargers :=
  let EV_CHARGER_DATA := ensure_loaded frame DONGS_DATA EV_CHARGER_DATA in
  let '(lots_with_chargers, EV_CHARGER_DATA) :=
    get_parking_lots_with_chargers frame DONGS_DATA EV_CHARGER_DATA in
  (sorted_set (map listed_dong_name lots_with_chargers), EV_CHARGER_DATA).

Definition get_ev_charger_lots_by_dong (frame : res (list charger))
    (DONGS_DATA : registry) (EV_CHARGER_DATA : dict lot_chargers)
    (dong : str) : list str * dict lot_chargers :=
  let EV_CHARGER_DATA := ensure_loaded frame DONGS_DATA EV_CHARGER_DATA in
  let '(lots_with_chargers, EV_CHARGER_DATA) :=
    get_parking_lots_with_chargers frame DONGS_DATA EV_CHARGER_DATA in
  (map listed_lot_name
     (filter (fun lot => str_eqb (listed_dong_name lot) dong)
        lots_with_chargers),
   EV_CHARGER_DATA).

(** A row the reader can turn into a charger: the six columns it
    subscripts are there and the address cell is text or [None]. *)
Definition row_readable (row : charger) : bool :=
  match lookup row "충전소", lookup row "주소", lookup row "충전기타입",
        lookup row "충전용량", lookup row "이용가능시간",
        lookup row "시설구분(대)" with
  | Some _, Some cell, Some _, Some _, Some _, Some _ =>
      match cell with VNaN => false | _ => true end
  | _, _, _, _, _, _ => false
  end.

(** What the reader makes of a row: the seven keys, the cells passed
    through, the address normalised. *)
Definition charger_from_row (row c : charger) : Prop :=
  exists a,
    (exists cell, lookup row "주소" = Some cell
                  /\ normalize_address cell = Ok a)
    /\ lookup c "charger_name" = lookup row "충전소"
    /\ lookup c "address" = Some (VStr a)
    /\ lookup c "charger_type" = lookup row "충전기타입"
    /\ lookup c "capacity" = lookup row "충전용량"
    /\ lookup c "available_time" = lookup row "이용가능시간"
    /\ lookup c "facility_type" = lookup row "시설구분(대)"
    /\ lookup c "convenience" = Some (get row " 편의제공" (VStr [])).

(** A charger with a name, a type code and a normalised text address. *)
Definition keyed (c : charger) : Prop :=
  (exists n, lookup c "charger_name" = Some n)
  /\ (exists t, lookup c "charger_type" = Some t)
  /\ (exists a, lookup c "address" = Some (VStr a)
                /\ normalize_address (VStr a) = Ok a).

Definition str_lt (a b : str) : Prop := str_ltb a b = true.

(** The listed lot made of a registry lot and its chargers. *)
Definition listing_of (dong : str) (lot : lot_tuple) (info : lot_chargers)
  : listed_lot :=
  let '(lot_name, total_spaces, address, parking_type, price_info, _) :=
    lot in
  {| listed_dong_name := dong;
     listed_lot_name := lot_name;
     listed_total_spaces := total_spaces;
     listed_address := address;
     listed_parking_type := parking_type;
     listed_price_info := price_info;
     listed_charger_info := info |}.

(** A row of the feed, a row with an empty address cell, and a lot that
    repeats the name of the first lot of [sample_lots] . *)
Definition sample_row : charger :=
  [("충전소", VStr (u "수매골 공영주차장 충전소"));
   ("주소", VStr (u "전라남도 순천시 조례동 1807"));
   ("충전기타입", VStr (u "DC콤보"));
   ("충전용량", VStr (u "급속(50kW)"));
   ("이용가능시간", VStr (u "24시간 이용가능"));
   ("시설구분(대)", VStr (u "공영주차장"))]%string.

Definition sample_row_without_address : charger :=
  [("충전소", VStr (u "연향동 충전소"));
   ("주소", VNaN);
   ("충전기타입", VStr (u "DC콤보"));
   ("충전용량", VStr (u "급속(50kW)"));
   ("이용가능시간", VStr (u "24시간 이용가능"));
   ("시설구분(대)", VStr (u "공영주차장"))]%string.

Definition sumaegol_again : lot_tuple :=
  (u "수매골 공영주차장", 20%Z, u "전라남도 순천시 조례동 1810-2",
   u "유료", u "30분당 500원", u "🔌X").

(** A designator as the specification words it: groups of digits, with
    single hyphens between them only. *)
Fixpoint spec_designator_from (s : str) (in_group : bool) : bool :=
  match s with
  | [] => in_group
  | c :: s' =>
      if isdecimal c then spec_designator_from s' true
      else if c =? hyphen_char then in_group && spec_designator_from s' false
      else false
  end.

Definition spec_designator (s : str) : bool := spec_designator_from s false.

(** The lot names of the registry in its own order: dong after dong, and
    within a dong lot after lot. *)
Definition registry_names (parking_lots : registry) : list str :=
  flat_map (fun group => map tuple_name (snd group)) parking_lots.

(** The distinct names of a list, in the order of their first
    occurrence. *)
Definition first_seen (names : list str) : list str :=
  fold_left
    (fun seen n => if existsb (str_eqb n) seen then seen else seen ++ [n])
    names [].

(** Two lots of the registry at one address, and a charger there. *)
Definition tie_lots : registry :=
  [(u "연향동",
    [(u "연향 제2공영주차장", 17%Z, u "전남 순천시 연향동 1423",
      u "유료", u "30분당 500원", u "🔌X");
     (u "연향 제3공영주차장", 25%Z, u "전남 순천시 연향동 1423",
      u "유료", u "30분당 500원", u "🔌X")])].

Definition yeonhyang2 : str := Eval cbv in u "연향 제2공영주차장".
Definition yeonhyang3 : str := Eval cbv in u "연향 제3공영주차장".

Definition yeonhyang_info : lot_info :=
  {| dong_name := u "연향동";
     address := u "전남 순천시 연향동 1423";
     address_number := Some (u "연향동 1423") |}.

Definition charger_tie : charger :=
  [("charger_name", VStr (u "연향동 충전소"));
   ("address", VStr (u "전남 순천시 연향동 1423"));
   ("charger_type", VStr (u "DC콤보"));
   ("capacity", VStr (u "급속(50kW)"));
   ("available_time", VStr (u "24시간 이용가능"))]%string.

(** * Properties *)

(** ** Strings *)

Lemma str_eqb_eq (a b : str) : str_eqb a b = true <-> a = b.
Proof.
  unfold str_eqb. destruct (str_eq_dec a b); split; congruence.
Qed.

Lemma str_eqb_neq (a b : str) : str_eqb a b = false <-> a <> b.
Proof.
  unfold str_eqb. destruct (str_eq_dec a b); split; congruence.
Qed.

Lemma str_eqb_refl (a : str) : str_eqb a a = true.
Proof. now apply str_eqb_eq. Qed.

Lemma startswith_app (p t : str) : startswith (p ++ t) p = true.
Proof.
  induction p as [|c p IH]; simpl; [reflexivity|].
  now rewrite N.eqb_refl, IH.
Qed.

Lemma startswith_inv (s p : str) :
  startswith s p = true -> exists t, s = p ++ t.
Proof.
  revert s. induction p as [|c p IH]; intros s H; simpl in *.
  - now exists s.
  - destruct s as [|d s]; [discriminate|].
    apply andb_true_iff in H as [Hc Hs]. apply N.eqb_eq in Hc. subst d.
    destruct (IH _ Hs) as [t ->]. now exists t.
Qed.

(** ** Normalisation *)

Lemma normalize_address_none : normalize_address VNone = Ok [].
Proof. reflexivity. Qed.

Lemma normalize_address_empty : normalize_address (VStr []) = Ok [].
Proof. reflexivity. Qed.

Lemma normalize_address_other (a : str) :
  startswith a long_province = false -> normalize_address (VStr a) = Ok a.
Proof.
  intros H. unfold normalize_address. destruct a as [|c a]; [reflexivity|].
  simpl truthy. cbn [negb]. rewrite H.
  now destruct (startswith (c :: a) short_province).
Qed.

(** On an address that starts with the long form the prefix is rewritten
    and every later occurrence of the long form as well. *)
Lemma normalize_address_long (rest : str) :
  normalize_address (VStr (long_province ++ rest))
  = Ok (short_province ++ replace rest long_province short_province).
Proof. reflexivity. Qed.

Lemma normalize_address_text (a : str) : exists b, normalize_address (VStr a) = Ok b.
Proof.
  unfold normalize_address. destruct a as [|c a]; [now exists []|].
  cbn [truthy negb].
  destruct (startswith (c :: a) long_province); [eauto|].
  destruct (startswith (c :: a) short_province); eauto.
Qed.

(** C7: an address that starts with the long form and holds it a second
    time has both occurrences rewritten, not the leading one only. *)
Theorem C7_second_occurrence_rewritten :
  normalize_address (VStr (u "전라남도 순천시 전라남도청길 1"))
  = Ok (u "전남 순천시 전남청길 1")
  /\ u "전남 순천시 전남청길 1"
     <> short_province ++ u " 순천시 전라남도청길 1".
Proof. split; [reflexivity | discriminate]. Qed.

(** C10: normalising an address a second time changes nothing. *)
Theorem C10_normalize_idempotent (a : str) :
  (b <- normalize_address (VStr a) ;; normalize_address (VStr b))
  = normalize_address (VStr a).
Proof.
  destruct (startswith a long_province) eqn:Hl.
  - destruct (startswith_inv _ _ Hl) as [rest ->].
    rewrite normalize_address_long. cbn [bind].
    apply normalize_address_other. reflexivity.
  - rewrite (normalize_address_other a Hl). cbn [bind].
    now apply normalize_address_other.
Qed.

(** ** The matcher *)

Lemma greedy_sound cls k s r :
  greedy cls k s = Some r ->
  exists x s', s = x ++ s' /\ forallb cls x = true /\ k s' = Some r.
Proof.
  induction s as [|c s IH]; simpl; intros H.
  - exists [], []. auto.
  - destruct (cls c) eqn:Hc.
    + destruct (greedy cls k s) as [r'|] eqn:Hg.
      * destruct (IH H) as (x & s' & -> & Hx & Hk).
        exists (c :: x), s'. simpl. rewrite Hc, Hx. auto.
      * exists [], (c :: s). auto.
    + exists [], (c :: s). auto.
Qed.

Lemma greedy_keeps cls k s r :
  k s = Some r -> exists r', greedy cls k s = Some r'.
Proof.
  intros H. destruct s as [|c s]; simpl; [eauto|].
  destruct (cls c); [|eauto].
  destruct (greedy cls k s); eauto.
Qed.

Lemma greedy_complete cls k x s r :
  forallb cls x = true -> k s = Some r ->
  exists r', greedy cls k (x ++ s) = Some r'.
Proof.
  induction x as [|c x IH]; simpl; intros Hx Hk.
  - eapply greedy_keeps; eauto.
  - apply andb_true_iff in Hx as [Hc Hx]. rewrite Hc.
    destruct (IH Hx Hk) as [r' ->]. eauto.
Qed.

Lemma match_here_sound p : forall s ms, match_here p s = Some ms -> pm p s ms.
Proof.
  induction p as [|a p IH]; intros s ms H; simpl in H.
  - inversion H. constructor.
  - destruct a as [c|cls|cls|].
    + destruct s as [|d s]; [discriminate|].
      destruct (N.eqb_spec d c); [subst|discriminate].
      constructor. auto.
    + destruct (greedy_sound _ _ _ _ H) as (x & s' & -> & Hx & Hk).
      constructor; auto.
    + destruct s as [|d s]; [discriminate|].
      destruct (cls d) eqn:Hd; [|discriminate].
      destruct (greedy_sound _ _ _ _ H) as (x & s' & -> & Hx & Hk).
      apply (pm_many1 cls p (d :: x) s' ms); [discriminate| |auto].
      simpl. now rewrite Hd.
    + destruct (match_here p s) as [ms'|] eqn:Hm; [|discriminate].
      inversion H; subst. constructor. auto.
Qed.

Lemma match_here_complete p s ms :
  pm p s ms -> exists ms', match_here p s = Some ms'.
Proof.
  induction 1 as [s|p s ms _ [ms' IH]|c p s ms _ [ms' IH]
                  |cls p x s ms Hx _ [ms' IH]|cls p x s ms Hne Hx _ [ms' IH]];
    simpl.
  - eauto.
  - rewrite IH. simpl. eauto.
  - rewrite N.eqb_refl. eauto.
  - eapply greedy_complete; eauto.
  - destruct x as [|d x]; [contradiction|]. simpl in *.
    apply andb_true_iff in Hx as [Hd Hx]. rewrite Hd.
    eapply greedy_complete; eauto.
Qed.

Lemma re_search_some p : forall s ms,
  re_search p s = Some ms ->
  exists pre s',
    s = pre ++ s' /\ match_here p s' = Some ms
    /\ forall pre' s'', s = pre' ++ s'' ->
         (length pre' < length pre)%nat -> match_here p s'' = None.
Proof.
  induction s as [|c s IH]; intros ms H; simpl in H.
  - destruct (match_here p []) eqn:Hm; [|discriminate].
    exists [], []. split; [reflexivity|]. split; [congruence|].
    simpl. intros. lia.
  - destruct (match_here p (c :: s)) eqn:Hm.
    + exists [], (c :: s). split; [reflexivity|]. split; [congruence|].
      simpl. intros. lia.
    + destruct (IH _ H) as (pre & s' & -> & Hs' & Hleft).
      exists (c :: pre), s'. split; [reflexivity|]. split; [assumption|].
      intros pre' s'' He Hlen. destruct pre' as [|c' pre']; simpl in *.
      * now subst s''.
      * inversion He; subst. apply (Hleft pre'); auto. lia.
Qed.

Lemma re_search_none p : forall s,
  re_search p s = None ->
  forall pre s', s = pre ++ s' -> match_here p s' = None.
Proof.
  induction s as [|c s IH]; intros H pre s' He; simpl in H.
  - destruct (match_here p []) eqn:Hm; [discriminate|].
    destruct pre; [|discriminate]. simpl in He. now subst.
  - destruct (match_here p (c :: s)) eqn:Hm; [discriminate|].
    destruct pre as [|c' pre]; simpl in He.
    + now subst.
    + inversion He; subst. eapply IH; eauto.
Qed.

Lemma between_app (x y : str) : between (x ++ y) y = x.
Proof.
  unfold between. rewrite length_app.
  replace (length x + length y - length y)%nat with (length x) by lia.
  rewrite firstn_app, Nat.sub_diag, firstn_all. simpl. apply app_nil_r.
Qed.

(** ** Lot numbers *)

Lemma pm_nil_inv s ms : pm [] s ms -> ms = [].
Proof. now inversion 1. Qed.

Lemma pm_mark_inv p s ms :
  pm (Mark :: p) s ms -> exists ms', ms = s :: ms' /\ pm p s ms'.
Proof. inversion 1; subst; eauto. Qed.

Lemma pm_lit_inv c p s ms :
  pm (Lit c :: p) s ms -> exists s', s = c :: s' /\ pm p s' ms.
Proof. inversion 1; subst; eauto. Qed.

Lemma pm_many0_inv cls p s ms :
  pm (Many0 cls :: p) s ms ->
  exists x s', s = x ++ s' /\ forallb cls x = true /\ pm p s' ms.
Proof. inversion 1; subst; eauto. Qed.

Lemma pm_many1_inv cls p s ms :
  pm (Many1 cls :: p) s ms ->
  exists x s', s = x ++ s' /\ x <> [] /\ forallb cls x = true /\ pm p s' ms.
Proof. inversion 1; subst. eexists _, _. eauto. Qed.

Lemma digits_are_hyphen_d (l : str) :
  forallb re_d l = true -> forallb re_hyphen_d l = true.
Proof.
  induction l as [|c l IH]; simpl; auto.
  intros H. apply andb_true_iff in H as [Hc Hl].
  unfold re_hyphen_d at 1. unfold re_d in Hc. rewrite Hc, orb_true_r.
  simpl. auto.
Qed.

Lemma lot_number_pattern_inv s ms :
  pm lot_number_pattern s ms ->
  exists tok ws d ds post,
    lot_occurrence s [] tok ws (d :: ds) post
    /\ exists d1 d2,
         d :: ds = d1 ++ d2
         /\ ms = [s; ws ++ d1 ++ d2 ++ post; d1 ++ d2 ++ post; post].
Proof.
  unfold lot_number_pattern. intros H.
  apply pm_mark_inv in H as (ms1 & -> & H).
  apply pm_many1_inv in H as (tok & s1 & -> & Htok & Hw & H).
  apply pm_lit_inv in H as (s2 & -> & H).
  apply pm_mark_inv in H as (ms2 & -> & H).
  apply pm_many0_inv in H as (ws & s3 & -> & Hws & H).
  apply pm_mark_inv in H as (ms3 & -> & H).
  apply pm_many1_inv in H as (d1 & s4 & -> & Hd1 & Hd & H).
  apply pm_many0_inv in H as (d2 & post & -> & Hd2 & H).
  apply pm_mark_inv in H as (ms4 & -> & H).
  apply pm_nil_inv in H as ->.
  destruct d1 as [|d d1]; [contradiction|].
  simpl in Hd. apply andb_true_iff in Hd as [Hd Hd1'].
  exists tok, ws, d, (d1 ++ d2), post.
  split.
  - unfold lot_occurrence. split; [|split; [|split; [|split]]]; auto.
    + simpl. now rewrite <- !app_assoc.
    + exists d, (d1 ++ d2). split; [reflexivity|]. split; [assumption|].
      rewrite forallb_app, Hd2, andb_true_r.
      now apply digits_are_hyphen_d.
  - exists (d :: d1), d2. split; reflexivity.
Qed.

Lemma lot_occurrence_pm s tok ws num post :
  lot_occurrence s [] tok ws num post ->
  exists ms, pm lot_number_pattern (tok ++ [dong_char] ++ ws ++ num ++ post) ms.
Proof.
  intros (_ & Htok & Hw & Hws & d & ds & -> & Hd & Hds).
  eexists. unfold lot_number_pattern.
  apply pm_mark. apply pm_many1; auto.
  apply (pm_lit dong_char). apply pm_mark. apply pm_many0; auto.
  apply pm_mark.
  apply (pm_many1 re_d _ [d] (ds ++ post));
    [discriminate| simpl; now rewrite Hd |].
  apply pm_many0; auto. apply pm_mark. constructor.
Qed.

Lemma lot_occurrence_shift a pre tok ws num post :
  lot_occurrence a pre tok ws num post ->
  lot_occurrence (tok ++ [dong_char] ++ ws ++ num ++ post) [] tok ws num post.
Proof.
  intros (_ & H). split; auto.
Qed.

Lemma lot_occurrence_nonempty a pre tok ws num post :
  lot_occurrence a pre tok ws num post -> a <> [].
Proof.
  intros (-> & Htok & _) He.
  apply app_eq_nil in He as [_ He]. apply app_eq_nil in He as [He _].
  contradiction.
Qed.

Lemma extract_address_number_text (a : str) :
  extract_address_number (VStr a)
  = match re_search lot_number_pattern a with
    | Some [g1; e1; g2; e2] =>
        Ok (Some (between g1 e1 ++ [space_char] ++ between g2 e2))
    | _ => Ok None
    end.
Proof. destruct a; reflexivity. Qed.

Lemma lot_search_some a ms :
  re_search lot_number_pattern a = Some ms ->
  exists pre tok ws num post,
    lot_occurrence a pre tok ws num post
    /\ ms = [tok ++ [dong_char] ++ ws ++ num ++ post;
             ws ++ num ++ post; num ++ post; post]
    /\ forall pre' tok' ws' num' post',
         lot_occurrence a pre' tok' ws' num' post' ->
         (length pre <= length pre')%nat.
Proof.
  intros H.
  destruct (re_search_some _ _ _ H) as (pre & s' & -> & Hm & Hleft).
  apply match_here_sound, lot_number_pattern_inv in Hm
    as (tok & ws & d & ds & post & Hocc & d1 & d2 & Hd & ->).
  exists pre, tok, ws, (d :: ds), post.
  pose proof Hocc as (Hs' & Hrest). simpl in Hs'.
  split; [|split].
  - split; [now rewrite Hs'|exact Hrest].
  - rewrite (app_assoc d1 d2 post), <- Hd. now rewrite Hs' at 1.
  - intros pre' tok' ws' num' post' Hocc'.
    destruct (Nat.le_gt_cases (length pre) (length pre')) as [|Hlt]; auto.
    exfalso.
    pose proof Hocc' as (Ha & _).
    destruct (lot_occurrence_pm _ _ _ _ _ (lot_occurrence_shift _ _ _ _ _ _ Hocc'))
      as [ms' Hpm].
    destruct (match_here_complete _ _ _ Hpm) as [ms'' Hsome].
    rewrite (Hleft pre' _ Ha Hlt) in Hsome. discriminate.
Qed.

Lemma lot_search_none a :
  re_search lot_number_pattern a = None ->
  ~ exists pre tok ws num post, lot_occurrence a pre tok ws num post.
Proof.
  intros H (pre & tok & ws & num & post & Hocc).
  pose proof Hocc as (Ha & _).
  destruct (lot_occurrence_pm _ _ _ _ _ (lot_occurrence_shift _ _ _ _ _ _ Hocc))
    as [ms' Hpm].
  destruct (match_here_complete _ _ _ Hpm) as [ms'' Hsome].
  rewrite (re_search_none _ _ H pre _ Ha) in Hsome. discriminate.
Qed.

Lemma extract_address_number_some a ms :
  re_search lot_number_pattern a = Some ms ->
  exists pre tok ws num post,
    lot_occurrence a pre tok ws num post
    /\ extract_address_number (VStr a)
       = Ok (Some (tok ++ [dong_char] ++ [space_char] ++ num))
    /\ forall pre' tok' ws' num' post',
         lot_occurrence a pre' tok' ws' num' post' ->
         (length pre <= length pre')%nat.
Proof.
  intros H.
  destruct (lot_search_some _ _ H)
    as (pre & tok & ws & num & post & Hocc & -> & Hleft).
  exists pre, tok, ws, num, post. split; [assumption|]. split; [|assumption].
  rewrite extract_address_number_text, H.
  rewrite (app_assoc tok [dong_char]), between_app, between_app.
  now rewrite <- app_assoc.
Qed.

(** ** One pair *)

Lemma score_pair_keep cn ca cd can lot_name info b :
  snd (score_pair cn ca cd can lot_name info b)
  = keep_best b lot_name (fst (score_pair cn ca cd can lot_name info b)).
Proof.
  assert (H0 : keep_best b lot_name 0 = b).
  { unfold keep_best. now rewrite andb_false_r. }
  assert (Hr : forall x y,
             snd (address_rules ca cd can lot_name info x y b)
             = keep_best b lot_name
                 (fst (address_rules ca cd can lot_name info x y b))).
  { intros x y. unfold address_rules.
    destruct (dong_differs cd (dong_name info)); simpl; [now rewrite H0|].
    reflexivity. }
  unfold score_pair.
  destruct (contains lot_name culture_health && contains cn culture_health);
    [|apply Hr].
  destruct (dong_differs cd (dong_name info)); [|apply Hr].
  destruct (contains ca swimming_pool || contains (address info) swimming_pool);
    [reflexivity|apply Hr].
Qed.

Lemma score_pair_fst cn ca cd can lot_name info b b' :
  fst (score_pair cn ca cd can lot_name info b)
  = fst (score_pair cn ca cd can lot_name info b').
Proof.
  assert (Hr : forall x y,
             fst (address_rules ca cd can lot_name info x y b)
             = fst (address_rules ca cd can lot_name info x y b')).
  { intros x y. unfold address_rules.
    now destruct (dong_differs cd (dong_name info)). }
  unfold score_pair.
  destruct (contains lot_name culture_health && contains cn culture_health);
    [|apply Hr].
  destruct (dong_differs cd (dong_name info)); [|apply Hr].
  destruct (contains ca swimming_pool || contains (address info) swimming_pool);
    [reflexivity|apply Hr].
Qed.

Lemma score_pair_step cn ca cd can item b :
  snd (score_pair cn ca cd can (fst item) (snd item) b)
  = keep_best b (fst item) (pair_score cn ca cd can item).
Proof.
  unfold pair_score. rewrite score_pair_keep. f_equal. apply score_pair_fst.
Qed.


(** C2: with the culture/health-center token in both names and differing
    dongs, a pool token in either address gives the pair the score 70,
    which becomes the running best exactly when it is at least 60 and above
    the running best, whatever the address rules would say; without a pool
    token the pair scores 0 and the running best stays. *)
Theorem C2_special_case_pair
    (charger_name charger_address : str)
    (charger_dong charger_address_number : option str)
    (lot_name : str) (info : lot_info) (b : best) :
  contains lot_name culture_health = true ->
  contains charger_name culture_health = true ->
  dong_differs charger_dong (dong_name info) = true ->
  (contains charger_address swimming_pool
   || contains (address info) swimming_pool = true ->
   score_pair charger_name charger_address charger_dong
     charger_address_number lot_name info b
   = (70%Z,
      if (60 <=? 70)%Z && (snd b <? 70)%Z then (Some lot_name, 70%Z) else b))
  /\ (contains charger_address swimming_pool
      || contains (address info) swimming_pool = false ->
      score_pair charger_name charger_address charger_dong
        charger_address_number lot_name info b
      = (0%Z, b)).
Proof.
  intros Hl Hc Hd. unfold score_pair. rewrite Hl, Hc, Hd. cbn [andb].
  split; intros Hp; rewrite Hp.
  - unfold keep_best. cbn [Z.add]. now rewrite andb_comm.
  - unfold address_rules. now rewrite Hd.
Qed.

(** C3: with agreeing dongs, different addresses, equal lot numbers on
    both sides and a name signal, the pair scores 80, and 60 more when the
    lot's number also occurs in the charger's address. *)
Theorem C3_lot_number_pair
    (charger_name charger_address : str) (charger_dong : option str)
    (lot_name : str) (info : lot_info) (number : str) (b : best) :
  dong_differs charger_dong (dong_name info) = false ->
  address info <> charger_address ->
  address_number info = Some number ->
  number <> [] ->
  name_in_charger lot_name charger_name
  || keyword_test lot_name charger_name = true ->
  fst (score_pair charger_name charger_address charger_dong (Some number)
         lot_name info b)
  = (80 + if contains charger_address number then 60 else 0)%Z.
Proof.
  intros Hd Ha Hn Hne Hsig.
  assert (Hsig' : name_in_charger lot_name charger_name || true = true)
    by apply orb_true_r.
  assert (Hr : forall km,
             name_in_charger lot_name charger_name || km = true ->
             fst (address_rules charger_address charger_dong (Some number)
                    lot_name info (name_in_charger lot_name charger_name)
                    km b)
             = (80 + if contains charger_address number then 60 else 0)%Z).
  { intros km Hkm. unfold address_rules. rewrite Hd, Hn, Hkm.
    apply str_eqb_neq in Ha. rewrite Ha.
    destruct number as [|c number]; [contradiction|].
    cbn [truthy_opt andb opt_eqb number_in]. rewrite str_eqb_refl.
    destruct (contains charger_address (c :: number)); reflexivity. }
  unfold score_pair. rewrite Hd.
  destruct (contains lot_name culture_health
            && contains charger_name culture_health); auto.
Qed.

(** ** Dictionaries and loops *)

Lemma dict_get_set {V : Type} (d : dict V) k v k' :
  dict_get (dict_set d k v) k'
  = if str_eqb k k' then Some v else dict_get d k'.
Proof.
  induction d as [|[k0 v0] d IH]; simpl.
  - reflexivity.
  - destruct (str_eqb k0 k) eqn:H0; simpl.
    + apply str_eqb_eq in H0. subst k0. now destruct (str_eqb k k').
    + destruct (str_eqb k0 k') eqn:H1; [|exact IH].
      apply str_eqb_eq in H1. subst k'.
      destruct (str_eqb k k0) eqn:H2; [|reflexivity].
      apply str_eqb_eq in H2. subst k0. rewrite str_eqb_refl in H0.
      discriminate.
Qed.

Lemma dict_set_in {V : Type} (d : dict V) k v k' v' :
  In (k', v') (dict_set d k v) -> (k', v') = (k, v) \/ In (k', v') d.
Proof.
  induction d as [|[k0 v0] d IH]; simpl.
  - intros [H|[]]. auto.
  - destruct (str_eqb k0 k) eqn:H0; simpl.
    + apply str_eqb_eq in H0. subst k0. intros [H|H]; auto.
    + intros [H|H]; auto. destruct (IH H); auto.
Qed.

Lemma dict_keys_set {V : Type} (d : dict V) k v k' :
  In k' (dict_keys (dict_set d k v)) -> k' = k \/ In k' (dict_keys d).
Proof.
  unfold dict_keys. intros H. apply in_map_iff in H as ([k1 v1] & <- & H).
  apply dict_set_in in H as [H|H].
  - inversion H. auto.
  - right. apply in_map_iff. now exists (k1, v1).
Qed.

Lemma for_each_inv {A S : Type} (P : S -> Prop) (Q : A -> Prop)
    (body : S -> A -> res S) :
  (forall s a s', Q a -> P s -> body s a = Ok s' -> P s') ->
  forall l s s',
    (forall a, In a l -> Q a) -> P s -> for_each l s body = Ok s' -> P s'.
Proof.
  intros Hstep. induction l as [|a l IH]; simpl; intros s s' HQ HP H.
  - now inversion H; subst.
  - destruct (body s a) as [s1|] eqn:Hb; [|discriminate].
    simpl in H. apply (IH s1).
    + intros a' Ha'. apply HQ. now right.
    + apply (Hstep s a); auto.
    + assumption.
Qed.

Lemma for_each_ok {A S : Type} (Q : A -> Prop) (body : S -> A -> res S) :
  (forall s a, Q a -> exists s', body s a = Ok s') ->
  forall l s, (forall a, In a l -> Q a) -> exists s', for_each l s body = Ok s'.
Proof.
  intros Hstep. induction l as [|a l IH]; simpl; intros s HQ.
  - eauto.
  - destruct (Hstep s a) as [s1 ->]; [apply HQ; now left|].
    simpl. apply IH. intros a' Ha'. apply HQ. now right.
Qed.

(** ** The index *)

Lemma index_lot_registered (parking_lots : registry) dong lots :
  In (dong, lots) parking_lots ->
  forall d lot d',
    In lot lots ->
    (forall L info, In (L, info) d -> registered parking_lots L (dong_name info)) ->
    index_lot dong d lot = Ok d' ->
    forall L info, In (L, info) d' -> registered parking_lots L (dong_name info).
Proof.
  intros Hg d lot d' Hl Hd H L info Hin.
  destruct lot as [[[[[lot_name ts] addr] pt] pr] ci]. unfold index_lot in H.
  destruct (normalize_address (VStr addr)) as [na|]; [|discriminate].
  cbn [bind] in H.
  destruct (extract_address_number (VStr na)) as [num|]; [|discriminate].
  cbn [bind] in H. inversion H; subst d'; clear H.
  apply dict_set_in in Hin as [Hin|Hin]; [|now apply Hd].
  inversion Hin; subst L info. cbn [dong_name].
  exists lots, (lot_name, ts, addr, pt, pr, ci). auto.
Qed.

Lemma parking_dict_registered (parking_lots : registry) pd :
  build_parking_dict parking_lots = Ok pd ->
  forall L info, In (L, info) pd -> registered parking_lots L (dong_name info).
Proof.
  unfold build_parking_dict.
  apply (for_each_inv
           (fun d => forall L info,
                In (L, info) d -> registered parking_lots L (dong_name info))
           (fun g => In g parking_lots)); auto.
  - intros d [dong lots] d' Hg Hd. cbn [fst snd].
    apply (for_each_inv
             (fun d => forall L info,
                  In (L, info) d -> registered parking_lots L (dong_name info))
             (fun lot => In lot lots)); auto.
    intros d0 lot d1 Hl Hd0 H. eapply index_lot_registered; eauto.
  - intros L info [].
Qed.

(** ** The inner loop *)

Lemma inner_loop_text c cn ca cd can :
  subscript c "charger_name" = Ok (VStr cn) ->
  forall items b,
    for_each items b
      (fun b item => r <- score_lot c ca cd can b item ;; Ok (snd r))
    = Ok (fold_left
            (fun b it => keep_best b (fst it) (pair_score cn ca cd can it))
            items b).
Proof.
  intros Hn. induction items as [|[lot_name info] items IH]; intros b; simpl.
  - reflexivity.
  - rewrite Hn. cbn [bind]. rewrite IH. f_equal. f_equal.
    apply (score_pair_step cn ca cd can (lot_name, info)).
Qed.

Lemma inner_loop c ca cd can items b b' :
  for_each items b
    (fun b item => r <- score_lot c ca cd can b item ;; Ok (snd r)) = Ok b' ->
  (items = [] /\ b' = b)
  \/ exists cn,
       subscript c "charger_name" = Ok (VStr cn)
       /\ b' = fold_left
                 (fun b it => keep_best b (fst it) (pair_score cn ca cd can it))
                 items b.
Proof.
  destruct items as [|[lot_name info] items]; intros H.
  - left. simpl in H. inversion H. auto.
  - right. destruct (subscript c "charger_name") as [[cn| |]|] eqn:Hn;
      try (simpl in H; rewrite Hn in H; discriminate).
    exists cn. split; [reflexivity|].
    rewrite (inner_loop_text c cn ca cd can Hn) in H. now inversion H.
Qed.

Section Selection.

Variables (cn ca : str) (cd can : option str).

Lemma selected_step seen b it :
  selected cn ca cd can seen b ->
  selected cn ca cd can (seen ++ [it])
    (keep_best b (fst it) (pair_score cn ca cd can it)).
Proof.
  unfold keep_best, selected, wins. intros Hsel.
  destruct ((snd b <? pair_score cn ca cd can it)%Z
            && (60 <=? pair_score cn ca cd can it)%Z) eqn:Hup.
  - apply andb_true_iff in Hup as [Hlt Hge].
    apply Z.ltb_lt in Hlt. apply Z.leb_le in Hge.
    right. exists (fst it), (snd it). split; [reflexivity|].
    exists seen, []. destruct it as [L info]. cbn [fst snd] in *.
    split; [reflexivity|]. split; [reflexivity|]. split; [assumption|].
    split; [|intros ? []].
    intros it' Hin. destruct Hsel as [[-> Hall]|(L0 & i0 & _ & Hw)].
    + specialize (Hall _ Hin). lia.
    + destruct Hw as (bf & af & -> & Hs & _ & Hbf & Haf).
      apply in_app_iff in Hin as [Hin|[<-|Hin]].
      * specialize (Hbf _ Hin). lia.
      * lia.
      * specialize (Haf _ Hin). lia.
  - apply andb_false_iff in Hup.
    destruct Hsel as [[-> Hall]|(L0 & i0 & HL & Hw)].
    + left. split; [reflexivity|]. intros it' Hin.
      apply in_app_iff in Hin as [Hin|[<-|[]]]; auto.
      cbn [snd] in Hup.
      destruct Hup as [Hup|Hup]; [apply Z.ltb_ge in Hup|apply Z.leb_gt in Hup];
        lia.
    + right. exists L0, i0. split; [assumption|].
      destruct Hw as (bf & af & -> & Hs & Hge & Hbf & Haf).
      exists bf, (af ++ [it]). rewrite <- app_assoc. cbn [app].
      split; [reflexivity|]. split; [assumption|]. split; [assumption|].
      split; [assumption|].
      intros it' Hin. apply in_app_iff in Hin as [Hin|[<-|[]]]; auto.
      destruct Hup as [Hup|Hup]; [apply Z.ltb_ge in Hup|apply Z.leb_gt in Hup];
        lia.
Qed.

Lemma selected_fold items : forall seen b,
  selected cn ca cd can seen b ->
  selected cn ca cd can (seen ++ items)
    (fold_left
       (fun b it => keep_best b (fst it) (pair_score cn ca cd can it))
       items b).
Proof.
  induction items as [|it items IH]; intros seen b H; simpl.
  - now rewrite app_nil_r.
  - change (seen ++ it :: items) with (seen ++ [it] ++ items).
    rewrite app_assoc. apply IH. now apply selected_step.
Qed.

End Selection.

Lemma best_lot_wins pd c L s :
  best_lot pd c = Ok (Some L, s) ->
  exists cn ca cd can info,
    derived c cn ca cd can /\ wins cn ca cd can pd L info s.
Proof.
  unfold best_lot. intros H.
  destruct (subscript c "address") as [v|] eqn:Hv; [|discriminate].
  cbn [bind] in H.
  destruct (normalize_address v) as [ca|] eqn:Hca; [|discriminate].
  cbn [bind] in H.
  destruct (extract_dong_from_address (VStr ca)) as [cd|] eqn:Hcd;
    [|discriminate].
  cbn [bind] in H.
  destruct (extract_address_number (VStr ca)) as [can|] eqn:Hcan;
    [|discriminate].
  cbn [bind] in H.
  apply inner_loop in H as [[_ H]|(cn & Hn & H)]; [discriminate|].
  pose proof (selected_fold cn ca cd can pd [] (None, 0%Z)) as Hsel.
  rewrite <- H in Hsel. cbn [app] in Hsel.
  destruct Hsel as [[Hb _]|(L0 & info & HL & Hw)].
  - left. split; [reflexivity|]. intros ? [].
  - discriminate.
  - cbn [fst snd] in HL, Hw. inversion HL; subst L0.
    exists cn, ca, cd, can, info. split; [|assumption].
    split; [assumption|]. exists v. auto.
Qed.

(** ** The outer loop *)

Lemma match_one_traced pd cs m c m' :
  In c cs -> traced pd cs m -> match_one pd m c = Ok m' -> traced pd cs m'.
Proof.
  intros Hc [Hkeys Hent] H. unfold match_one in H.
  destruct (best_lot pd c) as [[bm bs]|] eqn:Hb; [|discriminate].
  cbn [bind fst] in H.
  destruct bm as [L0|]; [|inversion H; subst; now split].
  destruct (truthy (VStr L0)); [|inversion H; subst; now split].
  destruct (make_entry c) as [e0|] eqn:He; [|discriminate].
  cbn [bind] in H. unfold append_entry in H.
  set (m1 := if dict_mem m L0 then m
             else dict_set m L0 {| has_charger := true; chargers := [] |})
    in H.
  destruct (dict_get m1 L0) as [v0|] eqn:Hget; [|discriminate].
  inversion H; subst m'; clear H.
  assert (Hk1 : forall L, In L (dict_keys m1) -> L = L0 \/ In L (dict_keys m)).
  { intros L HL. subst m1. destruct (dict_mem m L0); auto.
    now apply dict_keys_set in HL. }
  assert (Hg1 : forall L v e, dict_get m1 L = Some v -> In e (chargers v) ->
                  exists v', dict_get m L = Some v' /\ In e (chargers v')).
  { intros L v e Hg Hin. subst m1. destruct (dict_mem m L0); [eauto|].
    rewrite dict_get_set in Hg. destruct (str_eqb L0 L); [|eauto].
    inversion Hg; subst v. destruct Hin. }
  split.
  - intros L HL. apply dict_keys_set in HL as [->|HL]; [eauto|].
    apply Hk1 in HL as [->|HL]; eauto.
  - intros L v e Hg Hin. rewrite dict_get_set in Hg.
    destruct (str_eqb L0 L) eqn:HL.
    + apply str_eqb_eq in HL. subst L. inversion Hg; subst v; clear Hg.
      cbn [chargers] in Hin. apply in_app_iff in Hin as [Hin|[<-|[]]].
      * destruct (Hg1 _ _ _ Hget Hin) as (v' & Hv' & Hin'). eauto.
      * eauto.
    + destruct (Hg1 _ _ _ Hg Hin) as (v' & Hv' & Hin'). eauto.
Qed.

Lemma match_traced cs parking_lots m :
  match_charger_to_parking_lot cs parking_lots = Ok m ->
  exists pd, build_parking_dict parking_lots = Ok pd /\ traced pd cs m.
Proof.
  unfold match_charger_to_parking_lot. intros H.
  destruct (build_parking_dict parking_lots) as [pd|]; [|discriminate].
  cbn [bind] in H. exists pd. split; [reflexivity|].
  apply (for_each_inv (traced pd cs) (fun c => In c cs)
           (match_one pd)) with (l := cs) (s := []); auto.
  - intros m0 c m1 Hc Ht Hm. eapply match_one_traced; eauto.
  - split; [intros L []|intros L v e Hg; discriminate].
Qed.


Lemma wins_in cn ca cd can pd L info s :
  wins cn ca cd can pd L info s -> In (L, info) pd.
Proof.
  intros (bf & af & -> & _). apply in_app_iff. right. now left.
Qed.


(** C8: every key of the result is the name of a lot of the registry. *)
Theorem C8_registry_closure
    (cs : list charger) (parking_lots : registry) (m : dict lot_chargers)
    (L : str) :
  match_charger_to_parking_lot cs parking_lots = Ok m ->
  In L (dict_keys m) ->
  exists dong lots lot,
    In (dong, lots) parking_lots /\ In lot lots /\ tuple_name lot = L.
Proof.
  intros Hm HL.
  destruct (match_traced _ _ _ Hm) as (pd & Hpd & Hkeys & _).
  destruct (Hkeys _ HL) as (c & s & Hc & Hb).
  destruct (best_lot_wins _ _ _ _ Hb) as (cn & ca & cd & can & info & _ & Hw).
  apply wins_in in Hw.
  destruct (parking_dict_registered _ _ Hpd _ _ Hw) as (lots & lot & H).
  exists (dong_name info), lots, lot. exact H.
Qed.

(** ** Classification *)

(** C1: for a charger whose type code and capacity are text, the charge
    type is fast when the type code holds the DC marker or the capacity the
    fast keyword, else slow when the type code holds the AC marker or the
    capacity the slow keyword, else fast; the availability time plays no
    part. *)
Theorem C1_charge_type_from_type_and_capacity
    (c : charger) (charger_type capacity : str) (name : pyval) :
  subscript c "charger_type" = Ok (VStr charger_type) ->
  get c "capacity" (VStr []) = VStr capacity ->
  subscript c "charger_name" = Ok name ->
  exists e,
    make_entry c = Ok e
    /\ charge_type e
       = if contains charger_type marker_DC || contains capacity fast_word
         then fast_word
         else if contains charger_type marker_AC
                 || contains capacity slow_word
         then slow_word
         else fast_word.
Proof.
  intros Ht Hc Hn. unfold make_entry, classify_charge_type, or_else, py_in.
  rewrite Ht, Hc, Hn. cbn [bind py_str].
  destruct (contains charger_type marker_DC); cbn [bind orb].
  - eexists. split; reflexivity.
  - destruct (contains capacity fast_word); cbn [bind].
    + eexists. split; reflexivity.
    + destruct (contains charger_type marker_AC); cbn [bind orb].
      * eexists. split; reflexivity.
      * destruct (contains capacity slow_word); cbn [bind];
          eexists; split; reflexivity.
Qed.

(** ** Runs on text records *)

Lemma extract_address_number_ok (a : str) :
  exists o, extract_address_number (VStr a) = Ok o.
Proof.
  rewrite extract_address_number_text.
  destruct (re_search lot_number_pattern a)
    as [[|? [|? [|? [|? [|? ?]]]]]|]; eexists; reflexivity.
Qed.

Lemma extract_dong_from_address_ok (a : str) :
  exists o, extract_dong_from_address (VStr a) = Ok o.
Proof.
  unfold extract_dong_from_address.
  destruct a as [|c a]; [eexists; reflexivity|].
  cbn [truthy negb].
  destruct (re_search dong_pattern (c :: a)) as [[|? [|? [|? ?]]]|];
    eexists; reflexivity.
Qed.

Lemma build_parking_dict_ok (parking_lots : registry) :
  exists pd, build_parking_dict parking_lots = Ok pd.
Proof.
  unfold build_parking_dict.
  apply (for_each_ok (fun _ => True)); [|auto].
  intros d [dong lots] _. cbn [fst snd].
  apply (for_each_ok (fun _ => True)); [|auto].
  intros d0 [[[[[lot_name ts] addr] pt] pr] ci] _. unfold index_lot.
  destruct (normalize_address_text addr) as [na ->]. cbn [bind].
  destruct (extract_address_number_ok na) as [o ->]. cbn [bind]. eauto.
Qed.

Lemma subscript_lookup c key v :
  lookup c key = Some v -> subscript c key = Ok v.
Proof. unfold subscript. now intros ->. Qed.

Lemma best_lot_ok pd c :
  text_charger c -> exists b, best_lot pd c = Ok b.
Proof.
  intros ([cn Hn] & [a Ha] & _). unfold best_lot.
  rewrite (subscript_lookup _ _ _ Ha). cbn [bind].
  destruct (normalize_address_text a) as [ca ->]. cbn [bind].
  destruct (extract_dong_from_address_ok ca) as [cd ->]. cbn [bind].
  destruct (extract_address_number_ok ca) as [can ->]. cbn [bind].
  rewrite (inner_loop_text c cn ca cd can (subscript_lookup _ _ _ Hn)).
  eauto.
Qed.

Lemma make_entry_ok c : text_charger c -> exists e, make_entry c = Ok e.
Proof.
  intros ([cn Hn] & _ & [ct Ht] & [cap Hc]).
  unfold make_entry, classify_charge_type, or_else, py_in.
  rewrite (subscript_lookup _ _ _ Ht), (subscript_lookup _ _ _ Hn), Hc.
  cbn [bind py_str].
  destruct (contains ct marker_DC); cbn [bind]; [eauto|].
  destruct (contains cap fast_word); cbn [bind]; [eauto|].
  destruct (contains ct marker_AC); cbn [bind]; [eauto|].
  destruct (contains cap slow_word); cbn [bind]; eauto.
Qed.

Lemma match_one_ok pd m c :
  text_charger c -> exists m', match_one pd m c = Ok m'.
Proof.
  intros Hc. unfold match_one.
  destruct (best_lot_ok pd c Hc) as [[bm bs] ->]. cbn [bind fst].
  destruct bm as [L|]; [|eauto].
  destruct (truthy (VStr L)); [|eauto].
  destruct (make_entry_ok c Hc) as [e ->]. cbn [bind].
  unfold append_entry, dict_mem.
  destruct (dict_get m L) as [v|] eqn:Hg.
  - rewrite Hg. eauto.
  - rewrite dict_get_set, str_eqb_refl. eauto.
Qed.

(** On records whose name, address, type code and capacity are text the
    run returns a result, and every entry of it belongs to a charger for
    which the lot it stands under reached the threshold. *)
Lemma match_returns_on_text (cs : list charger) (parking_lots : registry) :
  (forall c, In c cs -> text_charger c) ->
  exists m,
    match_charger_to_parking_lot cs parking_lots = Ok m
    /\ forall L v e, dict_get m L = Some v -> In e (chargers v) ->
         exists c s,
           In c cs /\ make_entry c = Ok e /\ (60 <= s)%Z
           /\ exists pd, build_parking_dict parking_lots = Ok pd
                         /\ best_lot pd c = Ok (Some L, s).
Proof.
  intros Hcs.
  assert (Hm : exists m, match_charger_to_parking_lot cs parking_lots = Ok m).
  { unfold match_charger_to_parking_lot.
    destruct (build_parking_dict_ok parking_lots) as [pd ->]. cbn [bind].
    apply (for_each_ok text_charger); auto.
    intros m c Hc. now apply match_one_ok. }
  destruct Hm as [m Hm]. exists m. split; [assumption|].
  intros L v e Hg Hin.
  destruct (match_traced _ _ _ Hm) as (pd & Hpd & _ & Hent).
  destruct (Hent _ _ _ Hg Hin) as (c & s & Hc & Hb & He).
  exists c, s. split; [assumption|]. split; [assumption|].
  destruct (best_lot_wins _ _ _ _ Hb) as (? & ? & ? & ? & ? & _ & Hw).
  destruct Hw as (_ & _ & _ & _ & Hge & _).
  split; [assumption|]. eauto.
Qed.

(** ** Dong tokens *)

Lemma greedy_none cls k s :
  greedy cls k s = None ->
  forall x s', s = x ++ s' -> forallb cls x = true -> k s' = None.
Proof.
  intros H x s' -> Hx. destruct (k s') as [r|] eqn:Hk; [|reflexivity].
  destruct (greedy_complete cls k x s' r Hx Hk) as [r' Hr'].
  rewrite Hr' in H. discriminate.
Qed.

(** The greedy repetition gives back as little as it can: past the run it
    settles on, the rest of the pattern matches after no longer run. *)
Lemma greedy_longest cls k : forall s r,
  greedy cls k s = Some r ->
  exists x s',
    s = x ++ s' /\ forallb cls x = true /\ k s' = Some r
    /\ forall x' s'',
         s = x' ++ s'' -> forallb cls x' = true ->
         (length x < length x')%nat -> k s'' = None.
Proof.
  induction s as [|c s IH]; intros r H; simpl in H.
  - exists [], []. split; [reflexivity|]. split; [reflexivity|].
    split; [assumption|].
    intros x' s'' He _ Hlen. destruct x'; [simpl in Hlen; lia|discriminate].
  - destruct (cls c) eqn:Hc.
    + destruct (greedy cls k s) as [r'|] eqn:Hg.
      * destruct (IH _ H) as (x & s' & -> & Hx & Hk & Hmax).
        exists (c :: x), s'. split; [reflexivity|].
        split; [simpl; now rewrite Hc|]. split; [assumption|].
        intros x' s'' He Hx' Hlen.
        destruct x' as [|c' x']; [simpl in Hlen; lia|].
        simpl in He, Hx', Hlen. inversion He; subst c'.
        apply andb_true_iff in Hx' as [_ Hx'].
        apply (Hmax x'); auto. lia.
      * exists [], (c :: s). split; [reflexivity|]. split; [reflexivity|].
        split; [assumption|].
        intros x' s'' He Hx' Hlen.
        destruct x' as [|c' x']; [simpl in Hlen; lia|].
        simpl in He, Hx'. inversion He; subst c'.
        apply andb_true_iff in Hx' as [_ Hx'].
        eapply greedy_none; eauto.
    + exists [], (c :: s). split; [reflexivity|]. split; [reflexivity|].
      split; [assumption|].
      intros x' s'' He Hx' Hlen.
      destruct x' as [|c' x']; [simpl in Hlen; lia|].
      simpl in He, Hx'. inversion He; subst c'. rewrite Hc in Hx'.
      discriminate.
Qed.

Lemma extract_dong_from_address_text (a : str) :
  extract_dong_from_address (VStr a)
  = match re_search dong_pattern a with
    | Some [g1; e1] => Ok (Some (between g1 e1))
    | _ => Ok None
    end.
Proof. destruct a; reflexivity. Qed.

Lemma match_here_dong_unfold s :
  match_here dong_pattern s
  = option_map (cons s)
      match s with
      | d :: s' =>
          if re_w d
          then greedy re_w (match_here [Lit dong_char; Mark]) s'
          else None
      | [] => None
      end.
Proof. reflexivity. Qed.

Lemma match_here_dong_end s :
  match_here [Lit dong_char; Mark] s
  = match s with
    | e :: post => if e =? dong_char then Some [post] else None
    | [] => None
    end.
Proof. destruct s as [|e post]; [reflexivity|]. simpl. now destruct (e =? dong_char). Qed.

(** A match of the dong pattern at the start of [s]: the token it takes
    is the longest one there. *)
Lemma match_here_dong s ms :
  match_here dong_pattern s = Some ms ->
  exists tok post,
    dong_occurrence s [] tok post
    /\ ms = [s; post]
    /\ forall tok' post',
         dong_occurrence s [] tok' post' -> (length tok' <= length tok)%nat.
Proof.
  rewrite match_here_dong_unfold. intros H.
  destruct s as [|d s]; [discriminate|].
  destruct (re_w d) eqn:Hd; [|discriminate].
  destruct (greedy re_w (match_here [Lit dong_char; Mark]) s) as [r|] eqn:Hg;
    [|discriminate].
  cbn [option_map] in H. inversion H; subst ms; clear H.
  destruct (greedy_longest _ _ _ _ Hg) as (x & s' & -> & Hx & Hk & Hmax).
  rewrite match_here_dong_end in Hk.
  destruct s' as [|e post]; [discriminate|].
  destruct (N.eqb_spec e dong_char) as [->|]; [|discriminate].
  inversion Hk; subst r; clear Hk.
  exists (d :: x), post. split; [|split].
  - split; [reflexivity|]. split; [discriminate|]. simpl. now rewrite Hd.
  - reflexivity.
  - intros tok' post' (He & Hne & Hw).
    destruct tok' as [|d' tok']; [contradiction|].
    cbn [app] in He. inversion He as [[Hd' Hs]]. cbn [forallb] in Hw.
    apply andb_true_iff in Hw as [_ Hw].
    destruct (Nat.le_gt_cases (length (d' :: tok')) (length (d :: x)))
      as [|Hlt]; [assumption|].
    exfalso. cbn [length] in Hlt.
    assert (Hnone : match_here [Lit dong_char; Mark] (dong_char :: post') = None).
    { apply (Hmax tok'); auto. lia. }
    rewrite match_here_dong_end, N.eqb_refl in Hnone. discriminate.
Qed.

Lemma dong_occurrence_matches tok post :
  tok <> [] -> forallb re_w tok = true ->
  exists ms, match_here dong_pattern (tok ++ [dong_char] ++ post) = Some ms.
Proof.
  intros Hne Hw. apply match_here_complete with (ms := [tok ++ [dong_char] ++ post; post]).
  unfold dong_pattern. apply pm_mark. apply pm_many1; auto.
  apply (pm_lit dong_char). apply pm_mark. constructor.
Qed.

Lemma dong_search_some a ms :
  re_search dong_pattern a = Some ms ->
  exists pre tok post,
    dong_occurrence a pre tok post
    /\ ms = [tok ++ [dong_char] ++ post; post]
    /\ (forall pre' tok' post',
          dong_occurrence a pre' tok' post' ->
          (length pre <= length pre')%nat)
    /\ (forall tok' post',
          dong_occurrence a pre tok' post' ->
          (length tok' <= length tok)%nat).
Proof.
  intros H.
  destruct (re_search_some _ _ _ H) as (pre & s' & -> & Hm & Hleft).
  destruct (match_here_dong _ _ Hm) as (tok & post & Hocc & -> & Hlong).
  pose proof Hocc as (Hs' & Htok & Hw). cbn [app] in Hs'.
  exists pre, tok, post. split; [|split; [|split]].
  - split; [now rewrite Hs'|]. auto.
  - now rewrite Hs' at 1.
  - intros pre' tok' post' (Ha & Hne' & Hw').
    destruct (Nat.le_gt_cases (length pre) (length pre')) as [|Hlt]; auto.
    exfalso. destruct (dong_occurrence_matches tok' post' Hne' Hw') as [ms' Hs].
    rewrite (Hleft pre' _ Ha Hlt) in Hs. discriminate.
  - intros tok' post' (Ha & Hne' & Hw'). apply (Hlong tok' post').
    apply app_inv_head in Ha. split; [exact Ha|]. auto.
Qed.

Lemma dong_search_none a :
  re_search dong_pattern a = None ->
  ~ exists pre tok post, dong_occurrence a pre tok post.
Proof.
  intros H (pre & tok & post & Ha & Hne & Hw).
  destruct (dong_occurrence_matches tok post Hne Hw) as [ms Hs].
  rewrite (re_search_none _ _ H pre _ Ha) in Hs. discriminate.
Qed.

Lemma extract_dong_some a ms :
  re_search dong_pattern a = Some ms ->
  exists pre tok post,
    dong_occurrence a pre tok post
    /\ extract_dong_from_address (VStr a) = Ok (Some (tok ++ [dong_char]))
    /\ (forall pre' tok' post',
          dong_occurrence a pre' tok' post' ->
          (length pre <= length pre')%nat)
    /\ (forall tok' post',
          dong_occurrence a pre tok' post' ->
          (length tok' <= length tok)%nat).
Proof.
  intros H.
  destruct (dong_search_some _ _ H)
    as (pre & tok & post & Hocc & -> & Hleft & Hlong).
  exists pre, tok, post. split; [assumption|]. split; [|auto].
  rewrite extract_dong_from_address_text, H.
  now rewrite (app_assoc tok [dong_char]), between_app.
Qed.

(** X1: The dong of an address is the token of the leftmost occurrence of word
    characters followed by 동, and at that place the longest one; without
    an occurrence, and on an empty or absent address, there is none. *)
Theorem extract_dong_leftmost_longest (a : str) :
  extract_dong_from_address VNone = Ok None
  /\ extract_dong_from_address (VStr []) = Ok None
  /\ (forall d,
        extract_dong_from_address (VStr a) = Ok (Some d) ->
        exists pre tok post,
          dong_occurrence a pre tok post
          /\ d = tok ++ [dong_char]
          /\ (forall pre' tok' post',
                dong_occurrence a pre' tok' post' ->
                (length pre <= length pre')%nat)
          /\ (forall tok' post',
                dong_occurrence a pre tok' post' ->
                (length tok' <= length tok)%nat))
  /\ (extract_dong_from_address (VStr a) = Ok None <->
      ~ exists pre tok post, dong_occurrence a pre tok post).
Proof.
  split; [reflexivity|]. split; [reflexivity|].
  destruct (re_search dong_pattern a) as [ms|] eqn:Hs.
  - destruct (extract_dong_some _ _ Hs)
      as (pre & tok & post & Hocc & He & Hleft & Hlong).
    split.
    + intros d Hd. rewrite He in Hd. inversion Hd; subst d.
      exists pre, tok, post. auto.
    + rewrite He. split; [discriminate|].
      intros Hno. exfalso. apply Hno. eauto.
  - pose proof (dong_search_none _ Hs) as Hno.
    assert (He : extract_dong_from_address (VStr a) = Ok None)
      by now rewrite extract_dong_from_address_text, Hs.
    split.
    + intros d Hd. rewrite He in Hd. discriminate.
    + rewrite He. split; auto.
Qed.

(** X2: An address with a lot number has a dong: the lot number carries a dong
    token, so the dong search finds one too, and the lot number itself is
    never the empty string. *)
Theorem lot_number_implies_dong (a r : str) :
  extract_address_number (VStr a) = Ok (Some r) ->
  r <> []
  /\ exists d, extract_dong_from_address (VStr a) = Ok (Some d).
Proof.
  intros H.
  destruct (re_search lot_number_pattern a) as [ms|] eqn:Hs.
  - destruct (extract_address_number_some _ _ Hs)
      as (pre & tok & ws & num & post & Hocc & He & _).
    rewrite He in H. inversion H; subst r; clear H.
    destruct Hocc as (Ha & Htok & Hw & _).
    split.
    + destruct tok; [contradiction|discriminate].
    + destruct (re_search dong_pattern a) as [ms'|] eqn:Hd.
      * destruct (extract_dong_some _ _ Hd) as (? & tok' & ? & _ & Hed & _).
        eauto.
      * exfalso. apply (dong_search_none _ Hd).
        exists pre, tok, (ws ++ num ++ post). split; [exact Ha|]. auto.
  - rewrite extract_address_number_text, Hs in H. discriminate.
Qed.

(** ** What normalisation leaves behind *)

Lemma replace_from_absent old new : forall s,
  contains s old = false -> replace_from old new s 0 = s.
Proof.
  induction s as [|c s IH]; intros H; [reflexivity|].
  cbn [contains] in H. apply orb_false_iff in H as [Hs Hc].
  cbn [replace_from]. rewrite Hs. f_equal. auto.
Qed.

(** X4: When the long form stands at the start only, exactly that prefix is
    rewritten. *)
Theorem normalize_address_rewrites_prefix (rest : str) :
  contains rest long_province = false ->
  normalize_address (VStr (long_province ++ rest))
  = Ok (short_province ++ rest).
Proof.
  intros H. rewrite normalize_address_long. unfold replace.
  cbn [long_province]. fold long_province.
  now rewrite (replace_from_absent long_province short_province rest H).
Qed.

Lemma replace_long_head (t : str) :
  replace_from long_province short_province (long_province ++ t) 0
  = short_province ++ replace_from long_province short_province t 0.
Proof. reflexivity. Qed.

Lemma replace_long_other c s :
  startswith (c :: s) long_province = false ->
  replace_from long_province short_province (c :: s) 0
  = c :: replace_from long_province short_province s 0.
Proof. intros H. cbn [replace_from]. now rewrite H. Qed.

(** A prefix without the first character of the short form that shows
    after the replacement was there before it. *)
Lemma replace_long_prefix (p : str) :
  forallb (fun x => negb (x =? 0xC804)) p = true ->
  forall s,
    startswith (replace_from long_province short_province s 0) p = true ->
    startswith s p = true.
Proof.
  induction p as [|x p IH]; intros Hp s H; [reflexivity|].
  cbn [forallb] in Hp. apply andb_true_iff in Hp as [Hx Hp].
  apply negb_true_iff in Hx.
  destruct s as [|c s]; [discriminate|].
  destruct (startswith (c :: s) long_province) eqn:Hl.
  - destruct (startswith_inv _ _ Hl) as [t Ht]. rewrite Ht in H.
    rewrite replace_long_head in H. cbn [short_province app startswith] in H.
    rewrite N.eqb_sym, Hx in H. discriminate.
  - rewrite (replace_long_other c s Hl) in H. cbn [startswith] in H |- *.
    apply andb_true_iff in H as [Hc H]. rewrite Hc. cbn [andb]. auto.
Qed.

Lemma replace_long_clean : forall n s,
  (length s <= n)%nat ->
  contains (replace_from long_province short_province s 0) long_province
  = false.
Proof.
  induction n as [|n IH]; intros s Hn.
  - destruct s; [reflexivity|simpl in Hn; lia].
  - destruct s as [|c s]; [reflexivity|].
    destruct (startswith (c :: s) long_province) eqn:Hl.
    + destruct (startswith_inv _ _ Hl) as [t Ht]. rewrite Ht.
      rewrite replace_long_head.
      assert (Ht' : (length t <= n)%nat).
      { apply (f_equal (@length _)) in Ht. rewrite length_app in Ht.
        cbn [length long_province] in Ht, Hn. lia. }
      specialize (IH t Ht').
      cbn [short_province app contains startswith long_province].
      fold long_province. rewrite IH.
      reflexivity.
    + rewrite (replace_long_other c s Hl).
      cbn [contains]. rewrite IH by (simpl in Hn; lia).
      rewrite orb_false_r.
      destruct (startswith
                  (c :: replace_from long_province short_province s 0)
                  long_province) eqn:Hr; [|reflexivity].
      cbn [startswith long_province] in Hr, Hl.
      apply andb_true_iff in Hr as [Hc Hr]. rewrite Hc in Hl.
      cbn [andb] in Hl.
      apply (replace_long_prefix [0xB77C; 0xB0A8; 0xB3C4] eq_refl) in Hr.
      cbn [startswith] in Hr. congruence.
Qed.

(** X5: An address that began with the long form holds it nowhere once it is
    normalised. *)
Theorem normalize_address_removes_long_form (rest : str) :
  exists b,
    normalize_address (VStr (long_province ++ rest)) = Ok b
    /\ startswith b short_province = true
    /\ contains b long_province = false.
Proof.
  exists (short_province ++ replace rest long_province short_province).
  split; [apply normalize_address_long|]. split; [apply startswith_app|].
  unfold replace. cbn [long_province]. fold long_province.
  pose proof (replace_long_clean (length rest) rest (Nat.le_refl _)) as H.
  cbn [short_province app contains startswith long_province].
  fold long_province. now rewrite H.
Qed.

(** ** Scores and selection *)

(** X6: A pair scores 0, 60, 70, 80, 100, 140 or 160; at least 100 when the
    dongs agree and the addresses are equal, at most 140 when the addresses
    differ. *)
Theorem pair_score_values
    (charger_name charger_address : str)
    (charger_dong charger_address_number : option str)
    (lot_name : str) (info : lot_info) (b : best) :
  let score := fst (score_pair charger_name charger_address charger_dong
                      charger_address_number lot_name info b) in
  In score [0; 60; 70; 80; 100; 140; 160]%Z
  /\ (dong_differs charger_dong (dong_name info) = false ->
      address info = charger_address -> (100 <= score)%Z)
  /\ (address info <> charger_address -> (score <= 140)%Z).
Proof.
  cbn zeta. unfold score_pair, address_rules.
  destruct (str_eq_dec (address info) charger_address) as [He|He].
  - rewrite (proj2 (str_eqb_eq _ _) He).
    destruct (contains lot_name culture_health
              && contains charger_name culture_health);
      destruct (dong_differs charger_dong (dong_name info));
      destruct (contains charger_address swimming_pool
                || contains (address info) swimming_pool);
      destruct (truthy_opt (address_number info)
                && number_in (address_number info) charger_address);
      destruct (name_in_charger lot_name charger_name);
      destruct (keyword_test lot_name charger_name);
      cbn; (split; [tauto|split; [intros; try discriminate; lia
                                 |intros; contradiction]]).
  - rewrite (proj2 (str_eqb_neq _ _) He).
    destruct (contains lot_name culture_health
              && contains charger_name culture_health);
      destruct (dong_differs charger_dong (dong_name info));
      destruct (contains charger_address swimming_pool
                || contains (address info) swimming_pool);
      destruct (truthy_opt charger_address_number
                && truthy_opt (address_number info));
      destruct (opt_eqb charger_address_number (address_number info));
      destruct (truthy_opt (address_number info)
                && number_in (address_number info) charger_address);
      destruct (name_in_charger lot_name charger_name);
      destruct (keyword_test lot_name charger_name);
      cbn; (split; [tauto|split; [intros; try discriminate; contradiction
                                 |intros; lia]]).
Qed.

Lemma best_lot_text pd c cn ca cd can :
  derived c cn ca cd can ->
  best_lot pd c
  = Ok (fold_left
          (fun b it => keep_best b (fst it) (pair_score cn ca cd can it))
          pd (None, 0%Z)).
Proof.
  intros (Hn & v & Hv & Hca & Hcd & Hcan). unfold best_lot.
  rewrite Hv. cbn [bind]. rewrite Hca. cbn [bind]. rewrite Hcd. cbn [bind].
  rewrite Hcan. cbn [bind]. apply inner_loop_text. exact Hn.
Qed.


(** ** The shape of the result *)

Lemma dict_get_of_key {V : Type} (d : dict V) k :
  In k (dict_keys d) -> exists v, dict_get d k = Some v.
Proof.
  induction d as [|[k0 v0] d IH]; simpl; [intros []|].
  intros [->|H].
  - rewrite str_eqb_refl. eauto.
  - destruct (str_eqb k0 k); eauto.
Qed.

Lemma dict_key_of_get {V : Type} (d : dict V) k v :
  dict_get d k = Some v -> In k (dict_keys d).
Proof.
  induction d as [|[k0 v0] d IH]; simpl; [discriminate|].
  destruct (str_eqb k0 k) eqn:He.
  - apply str_eqb_eq in He. auto.
  - auto.
Qed.

Lemma match_one_shape pd m c m' :
  (forall L v, dict_get m L = Some v ->
     L <> [] /\ has_charger v = true /\ chargers v <> []) ->
  match_one pd m c = Ok m' ->
  forall L v, dict_get m' L = Some v ->
    L <> [] /\ has_charger v = true /\ chargers v <> [].
Proof.
  intros Hm H. unfold match_one in H.
  destruct (best_lot pd c) as [[bm bs]|]; [|discriminate].
  cbn [bind fst] in H.
  destruct bm as [L0|]; [|inversion H; subst; exact Hm].
  destruct (truthy (VStr L0)) eqn:Ht; [|inversion H; subst; exact Hm].
  destruct (make_entry c) as [e0|]; [|discriminate].
  cbn [bind] in H. unfold append_entry, dict_mem in H.
  destruct (dict_get m L0) as [v0|] eqn:Hg0.
  - rewrite Hg0 in H. inversion H; subst m'; clear H.
    intros L v Hg. rewrite dict_get_set in Hg.
    destruct (str_eqb L0 L) eqn:HL; [|eauto].
    apply str_eqb_eq in HL. subst L. inversion Hg; subst v; clear Hg.
    destruct (Hm _ _ Hg0) as (Hne & Hh & _). cbn [has_charger chargers].
    split; [assumption|]. split; [assumption|].
    now destruct (chargers v0).
  - rewrite dict_get_set, str_eqb_refl in H. inversion H; subst m'; clear H.
    intros L v Hg. rewrite !dict_get_set in Hg.
    destruct (str_eqb L0 L) eqn:HL; [|eauto].
    apply str_eqb_eq in HL. subst L. inversion Hg; subst v; clear Hg.
    cbn [has_charger chargers app].
    split; [|split; [reflexivity|discriminate]].
    intros ->. discriminate.
Qed.

Lemma match_values_shape cs parking_lots m :
  match_charger_to_parking_lot cs parking_lots = Ok m ->
  forall L v, dict_get m L = Some v ->
    L <> [] /\ has_charger v = true /\ chargers v <> [].
Proof.
  unfold match_charger_to_parking_lot. intros H.
  destruct (build_parking_dict parking_lots) as [pd|]; [|discriminate].
  cbn [bind] in H.
  apply (for_each_inv
           (fun m => forall L v, dict_get m L = Some v ->
                       L <> [] /\ has_charger v = true /\ chargers v <> [])
           (fun _ => True) (match_one pd)) with (l := cs) (s := []); auto.
  - intros m0 c m1 _ Hm0 H1. eapply match_one_shape; eauto.
  - intros L0 v0 Hg. discriminate.
Qed.

Lemma match_keys_registered cs parking_lots m L :
  match_charger_to_parking_lot cs parking_lots = Ok m ->
  In L (dict_keys m) ->
  exists dong, registered parking_lots L dong.
Proof.
  intros Hm HL.
  destruct (match_traced _ _ _ Hm) as (pd & Hpd & Hkeys & _).
  destruct (Hkeys _ HL) as (c & s & Hc & Hb).
  destruct (best_lot_wins _ _ _ _ Hb) as (cn & ca & cd & can & info & _ & Hw).
  apply wins_in in Hw. exists (dong_name info).
  eapply parking_dict_registered; eauto.
Qed.

(** X8: Every key of the result is a non-empty name and carries the flag and
    at least one charger: a lot is entered only when a charger is appended
    to it, and a lot with an empty name is never entered. *)
Theorem match_result_shape
    (cs : list charger) (parking_lots : registry) (m : dict lot_chargers)
    (L : str) :
  match_charger_to_parking_lot cs parking_lots = Ok m ->
  In L (dict_keys m) ->
  L <> []
  /\ exists v,
       dict_get m L = Some v /\ has_charger v = true /\ chargers v <> [].
Proof.
  intros H HL. destruct (dict_get_of_key _ _ HL) as [v Hv].
  destruct (match_values_shape _ _ _ H _ _ Hv) as (Hne & Hh & Hc). eauto.
Qed.

Lemma match_one_entries pd m c m' :
  match_one pd m c = Ok m' ->
  forall L, entries_of m' L = entries_of m L ++ won_entry pd L c.
Proof.
  intros H L. unfold match_one in H. unfold won_entry.
  destruct (best_lot pd c) as [[bm bs]|]; [|discriminate].
  cbn [bind fst] in H.
  destruct bm as [L0|];
    [|inversion H; subst; destruct (make_entry c); now rewrite app_nil_r].
  destruct (truthy (VStr L0)) eqn:Ht;
    [|inversion H; subst; destruct (make_entry c); now rewrite app_nil_r].
  destruct (make_entry c) as [e0|]; [|discriminate].
  cbn [bind andb] in H |- *. unfold append_entry, dict_mem in H.
  unfold entries_of.
  destruct (dict_get m L0) as [v0|] eqn:Hg0.
  - rewrite Hg0 in H. inversion H; subst m'; clear H.
    rewrite dict_get_set. destruct (str_eqb L0 L) eqn:HL.
    + apply str_eqb_eq in HL. subst L. now rewrite Hg0.
    + now rewrite app_nil_r.
  - rewrite dict_get_set, str_eqb_refl in H. inversion H; subst m'; clear H.
    rewrite !dict_get_set. destruct (str_eqb L0 L) eqn:HL.
    + apply str_eqb_eq in HL. subst L. now rewrite Hg0.
    + now rewrite app_nil_r.
Qed.

Lemma match_loop_entries pd : forall cs m m',
  for_each cs m (match_one pd) = Ok m' ->
  forall L, entries_of m' L = entries_of m L ++ flat_map (won_entry pd L) cs.
Proof.
  induction cs as [|c cs IH]; intros m m' H L; simpl in H.
  - inversion H; subst. simpl. now rewrite app_nil_r.
  - destruct (match_one pd m c) as [m1|] eqn:H1; [|discriminate].
    cbn [bind] in H. rewrite (IH _ _ H L), (match_one_entries _ _ _ _ H1 L).
    cbn [flat_map]. now rewrite app_assoc.
Qed.


(** ** Errors of the classification *)

(** X10: What [make_entry] does with the type code and the capacity: a record
    without a type code gives a [KeyError] and a type code that is not text
    a [TypeError]; a text type code with the DC marker is classified fast
    whatever the capacity holds; without the marker a capacity that is not
    text gives a [TypeError]. *)
Theorem make_entry_errors (c : charger) :
  (lookup c "charger_type" = None -> make_entry c = Raise KeyError)
  /\ (forall v, lookup c "charger_type" = Some v ->
        (forall s, v <> VStr s) -> make_entry c = Raise TypeError)
  /\ (forall t name,
        lookup c "charger_type" = Some (VStr t) ->
        contains t marker_DC = true ->
        lookup c "charger_name" = Some name ->
        exists e, make_entry c = Ok e /\ charge_type e = fast_word)
  /\ (forall t,
        lookup c "charger_type" = Some (VStr t) ->
        contains t marker_DC = false ->
        (forall s, get c "capacity" (VStr []) <> VStr s) ->
        make_entry c = Raise TypeError).
Proof.
  unfold make_entry, subscript, classify_charge_type, or_else, py_in.
  split; [|split; [|split]].
  - intros ->. reflexivity.
  - intros v -> Hv. destruct v as [s| |]; [|reflexivity|reflexivity].
    now destruct (Hv s).
  - intros t name -> Ht ->. cbn [bind]. rewrite Ht. cbn [bind].
    eexists. split; reflexivity.
  - intros t -> Ht Hc. cbn [bind]. rewrite Ht. cbn [bind].
    destruct (get c "capacity" (VStr [])) as [s| |];
      [|reflexivity|reflexivity].
    now destruct (Hc s).
Qed.

(** ** The index, continued *)

Lemma dict_keys_set_old {V : Type} (d : dict V) k v :
  In k (dict_keys d) -> dict_keys (dict_set d k v) = dict_keys d.
Proof.
  induction d as [|[k0 v0] d IH]; simpl; [intros []|].
  destruct (str_eqb k0 k) eqn:He; [reflexivity|].
  intros [->|H]; [now rewrite str_eqb_refl in He|].
  simpl. f_equal. auto.
Qed.

Lemma dict_keys_set_new {V : Type} (d : dict V) k v :
  ~ In k (dict_keys d) -> dict_keys (dict_set d k v) = dict_keys d ++ [k].
Proof.
  induction d as [|[k0 v0] d IH]; simpl; [reflexivity|].
  intros Hn. destruct (str_eqb k0 k) eqn:He.
  - apply str_eqb_eq in He. subst k0. exfalso. auto.
  - simpl. f_equal. auto.
Qed.

Lemma dict_set_nodup {V : Type} (d : dict V) k v :
  NoDup (dict_keys d) -> NoDup (dict_keys (dict_set d k v)).
Proof.
  intros H. destruct (in_dec str_eq_dec k (dict_keys d)) as [Hin|Hn].
  - now rewrite dict_keys_set_old.
  - rewrite dict_keys_set_new by assumption.
    apply NoDup_app; [assumption|repeat constructor; intros []|].
    intros x Hx [<-|[]]. contradiction.
Qed.

Lemma dict_set_key {V : Type} (d : dict V) k v x :
  In x (dict_keys (dict_set d k v)) <-> x = k \/ In x (dict_keys d).
Proof.
  destruct (in_dec str_eq_dec k (dict_keys d)) as [Hin|Hn].
  - rewrite dict_keys_set_old by assumption. split; [auto|].
    intros [->|H]; auto.
  - rewrite dict_keys_set_new by assumption. rewrite in_app_iff. simpl.
    split; intros [H|H]; auto.
    destruct H as [<-|[]]. auto.
Qed.

Lemma index_lot_result dong d lot :
  exists na num,
    normalize_address (VStr (tuple_address lot)) = Ok na
    /\ extract_address_number (VStr na) = Ok num
    /\ index_lot dong d lot
       = Ok (dict_set d (tuple_name lot)
               {| dong_name := dong; address := na; address_number := num |}).
Proof.
  destruct lot as [[[[[lot_name ts] addr] pt] pr] ci].
  cbn [tuple_address tuple_name]. unfold index_lot.
  destruct (normalize_address_text addr) as [na Hna].
  destruct (extract_address_number_ok na) as [num Hnum].
  exists na, num. rewrite Hna. cbn [bind]. rewrite Hnum. cbn [bind]. auto.
Qed.

Lemma for_each_app {A S : Type} (body : S -> A -> res S) : forall l1 l2 s,
  for_each (l1 ++ l2) s body
  = (s' <- for_each l1 s body ;; for_each l2 s' body).
Proof.
  induction l1 as [|a l1 IH]; intros l2 s; simpl; [reflexivity|].
  destruct (body s a); simpl; auto.
Qed.

(** The keys of the index after some lots of one dong. *)
Lemma index_lots_keys dong : forall lots d d',
  for_each lots d (index_lot dong) = Ok d' ->
  (NoDup (dict_keys d) -> NoDup (dict_keys d'))
  /\ forall x,
       In x (dict_keys d')
       <-> In x (dict_keys d) \/ exists lot, In lot lots /\ tuple_name lot = x.
Proof.
  induction lots as [|lot lots IH]; intros d d' H; simpl in H.
  - inversion H; subst. split; [auto|]. intros x. split; [auto|].
    intros [Hx|(lot & [] & _)]. exact Hx.
  - destruct (index_lot_result dong d lot) as (na & num & _ & _ & Hi).
    rewrite Hi in H. cbn [bind] in H.
    destruct (IH _ _ H) as [Hnd Hkeys]. split.
    + intros Hd. apply Hnd. now apply dict_set_nodup.
    + intros x. rewrite Hkeys, dict_set_key. split.
      * intros [[->|Hx]|(l & Hl & Hn)].
        -- right. exists lot. split; [now left|reflexivity].
        -- auto.
        -- right. exists l. split; [now right|assumption].
      * intros [Hx|(l & [<-|Hl] & Hn)]; [auto|auto|].
        right. eauto.
Qed.

Lemma index_groups_keys : forall groups d d',
  for_each groups d
    (fun d group => for_each (snd group) d (index_lot (fst group))) = Ok d' ->
  (NoDup (dict_keys d) -> NoDup (dict_keys d'))
  /\ forall x,
       In x (dict_keys d')
       <-> In x (dict_keys d) \/ exists dong, registered groups x dong.
Proof.
  induction groups as [|[dong lots] groups IH]; intros d d' H; simpl in H.
  - inversion H; subst. split; [auto|]. intros x. split; [auto|].
    intros [Hx|(dong & lots & lot & [] & _)]. exact Hx.
  - destruct (for_each lots d (index_lot dong)) as [d1|] eqn:H1;
      [|discriminate].
    cbn [bind] in H.
    destruct (index_lots_keys dong lots d d1 H1) as [Hnd1 Hk1].
    destruct (IH _ _ H) as [Hnd Hk]. split; [auto|].
    intros x. rewrite Hk, Hk1. split.
    + intros [[Hx|(lot & Hl & Hn)]|(dg & ls & lot & Hg & Hl & Hn)].
      * auto.
      * right. exists dong, lots, lot. split; [now left|auto].
      * right. exists dg, ls, lot. split; [now right|auto].
    + intros [Hx|(dg & ls & lot & [Hg|Hg] & Hl & Hn)].
      * auto.
      * inversion Hg; subst. left. right. eauto.
      * right. exists dg, ls, lot. auto.
Qed.

(** X12: The index has one key per lot name of the registry and no other. *)
Theorem parking_dict_keys (parking_lots : registry) :
  exists pd,
    build_parking_dict parking_lots = Ok pd
    /\ NoDup (dict_keys pd)
    /\ forall L,
         In L (dict_keys pd) <-> exists dong, registered parking_lots L dong.
Proof.
  destruct (build_parking_dict_ok parking_lots) as [pd Hpd].
  exists pd. split; [assumption|].
  destruct (index_groups_keys parking_lots [] pd Hpd) as [Hnd Hk].
  split; [apply Hnd; constructor|].
  intros L. rewrite Hk. split; [intros [[]|H]; exact H|auto].
Qed.

Lemma index_lot_other dong d lot d' L :
  tuple_name lot <> L -> index_lot dong d lot = Ok d' ->
  dict_get d' L = dict_get d L.
Proof.
  intros Hn H.
  destruct (index_lot_result dong d lot) as (na & num & _ & _ & Hi).
  rewrite Hi in H. inversion H; subst d'. rewrite dict_get_set.
  apply str_eqb_neq in Hn. now rewrite Hn.
Qed.

Lemma index_lots_other dong L lots : forall d d',
  (forall lot, In lot lots -> tuple_name lot <> L) ->
  for_each lots d (index_lot dong) = Ok d' ->
  dict_get d' L = dict_get d L.
Proof.
  induction lots as [|lot lots IH]; intros d d' Hn H; simpl in H.
  - now inversion H.
  - destruct (index_lot dong d lot) as [d1|] eqn:H1; [|discriminate].
    cbn [bind] in H. rewrite (IH d1 d'); auto.
    + eapply index_lot_other; eauto. apply Hn. now left.
    + intros l Hl. apply Hn. now right.
Qed.

Lemma index_groups_other L groups : forall d d',
  (forall g lot, In g groups -> In lot (snd g) -> tuple_name lot <> L) ->
  for_each groups d
    (fun d group => for_each (snd group) d (index_lot (fst group))) = Ok d' ->
  dict_get d' L = dict_get d L.
Proof.
  induction groups as [|g groups IH]; intros d d' Hn H; simpl in H.
  - now inversion H.
  - destruct (for_each (snd g) d (index_lot (fst g))) as [d1|] eqn:H1;
      [|discriminate].
    cbn [bind] in H. rewrite (IH d1 d'); auto.
    + eapply index_lots_other; eauto. intros lot Hl. apply (Hn g); auto.
      now left.
    + intros g' lot Hg Hl. apply (Hn g'); auto. now right.
Qed.

(** X13: When several lots of the registry share a name, the index keeps what
    the last of them says: its dong, its normalised address and the lot
    number of that address. *)
Theorem parking_dict_last_write_wins
    (before after : registry) (dong : str) (earlier later : list lot_tuple)
    (lot : lot_tuple) (pd : dict lot_info) :
  build_parking_dict (before ++ (dong, earlier ++ lot :: later) :: after)
  = Ok pd ->
  (forall l, In l later -> tuple_name l <> tuple_name lot) ->
  (forall g l, In g after -> In l (snd g) -> tuple_name l <> tuple_name lot) ->
  exists na num,
    normalize_address (VStr (tuple_address lot)) = Ok na
    /\ extract_address_number (VStr na) = Ok num
    /\ dict_get pd (tuple_name lot)
       = Some {| dong_name := dong; address := na; address_number := num |}.
Proof.
  unfold build_parking_dict. intros H Hlater Hafter.
  rewrite for_each_app in H.
  destruct (for_each before [] _) as [d1|]; [|discriminate].
  cbn [bind for_each fst snd] in H.
  rewrite for_each_app in H.
  destruct (for_each earlier d1 (index_lot dong)) as [d2|]; [|discriminate].
  cbn [bind for_each] in H.
  destruct (index_lot_result dong d2 lot) as (na & num & Hna & Hnum & Hi).
  rewrite Hi in H. cbn [bind] in H.
  match type of H with
  | context [for_each later ?d ?f] =>
      destruct (for_each later d f) as [d3|] eqn:H3;
        (change (for_each later d f) with (@for_each lot_tuple (dict lot_info) later d f) in H);
        rewrite H3 in H; [|discriminate]
  end.
  cbn [bind] in H. exists na, num. split; [assumption|]. split; [assumption|].
  rewrite (index_groups_other _ _ _ _ Hafter H).
  rewrite (index_lots_other _ _ _ _ _ Hlater H3).
  now rewrite dict_get_set, str_eqb_refl.
Qed.

(** ** The feed reader *)

Lemma normalize_address_stable v a :
  normalize_address v = Ok a -> normalize_address (VStr a) = Ok a.
Proof.
  destruct v as [s| |]; [|intros H; now inversion H|discriminate].
  destruct (startswith s long_province) eqn:Hl.
  - destruct (startswith_inv _ _ Hl) as [rest ->].
    rewrite normalize_address_long. intros H. inversion H; subst a.
    now apply normalize_address_other.
  - rewrite (normalize_address_other s Hl). intros H. inversion H; subst a.
    now apply normalize_address_other.
Qed.

Lemma charger_of_row_readable row :
  row_readable row = true ->
  exists c, charger_of_row row = Ok c /\ charger_from_row row c.
Proof.
  unfold row_readable, charger_of_row, subscript. intros H.
  destruct (lookup row "충전소") as [name|] eqn:H1; [|discriminate].
  destruct (lookup row "주소") as [cell|] eqn:H2; [|discriminate].
  destruct (lookup row "충전기타입") as [ct|] eqn:H3; [|discriminate].
  destruct (lookup row "충전용량") as [cap|] eqn:H4; [|discriminate].
  destruct (lookup row "이용가능시간") as [time|] eqn:H5; [|discriminate].
  destruct (lookup row "시설구분(대)") as [fac|] eqn:H6; [|discriminate].
  cbn [bind].
  assert (Hn : exists a, normalize_address cell = Ok a).
  { destruct cell as [s| |]; [apply normalize_address_text| |discriminate].
    now exists []. }
  destruct Hn as [a Ha]. rewrite Ha. cbn [bind].
  eexists. split; [reflexivity|].
  exists a. split; [eauto|]. rewrite H1, H3, H4, H5, H6.
  repeat (split; [reflexivity|]). reflexivity.
Qed.

Lemma charger_of_row_unreadable row :
  row_readable row = false -> exists e, charger_of_row row = Raise e.
Proof.
  unfold row_readable, charger_of_row, subscript. intros H.
  destruct (lookup row "충전소") as [name|]; [|now eexists].
  destruct (lookup row "주소") as [cell|]; [|now eexists].
  cbn [bind].
  destruct cell as [s| |].
  - destruct (normalize_address_text s) as [a ->]. cbn [bind].
    destruct (lookup row "충전기타입"); [|now eexists].
    destruct (lookup row "충전용량"); [|now eexists].
    destruct (lookup row "이용가능시간"); [|now eexists].
    destruct (lookup row "시설구분(대)"); [discriminate|now eexists].
  - cbn [normalize_address truthy negb bind].
    destruct (lookup row "충전기타입"); [|now eexists].
    destruct (lookup row "충전용량"); [|now eexists].
    destruct (lookup row "이용가능시간"); [|now eexists].
    destruct (lookup row "시설구분(대)"); [discriminate|now eexists].
  - now eexists.
Qed.

Lemma read_rows_loop : forall rows acc,
  if forallb row_readable rows
  then exists cs,
         for_each rows acc
           (fun chargers row =>
              c <- charger_of_row row ;; Ok (chargers ++ [c]))
         = Ok (acc ++ cs)
         /\ Forall2 (fun row c =>
                       row_readable row = true /\ charger_from_row row c)
              rows cs
  else exists e,
         for_each rows acc
           (fun chargers row =>
              c <- charger_of_row row ;; Ok (chargers ++ [c]))
         = Raise e.
Proof.
  induction rows as [|row rows IH]; intros acc.
  - cbn [forallb for_each]. exists []. rewrite app_nil_r. auto.
  - cbn [forallb for_each]. destruct (row_readable row) eqn:Hr.
    + destruct (charger_of_row_readable row Hr) as (c & Hc & Hfrom).
      rewrite Hc. cbn [bind andb]. specialize (IH (acc ++ [c])).
      destruct (forallb row_readable rows).
      * destruct IH as (cs & Hcs & Hall). exists (c :: cs).
        rewrite Hcs, <- app_assoc. auto.
      * exact IH.
    + destruct (charger_of_row_unreadable row Hr) as [e He].
      rewrite He. cbn [bind andb]. eauto.
Qed.

(** X14: The reader is all or nothing: when every row has the six columns and
    an address cell that is text or [None], it gives one charger per row,
    in order, with the cells passed through under the seven keys and the
    address normalised; one row short of that, or a failed file read,
    leaves the empty list. *)
Theorem read_ev_charger_csv_all_or_nothing (rows : list charger) (e : exn) :
  read_ev_charger_csv (Raise e) = []
  /\ if forallb row_readable rows
     then Forall2 charger_from_row rows (read_ev_charger_csv (Ok rows))
     else read_ev_charger_csv (Ok rows) = [].
Proof.
  split; [reflexivity|].
  unfold read_ev_charger_csv. cbn [bind].
  pose proof (read_rows_loop rows []) as H.
  destruct (forallb row_readable rows).
  - destruct H as (cs & -> & Hall). cbn [app].
    induction Hall as [|row c rows cs [_ Hrc] _ IH]; constructor; auto.
  - destruct H as [e' ->]. reflexivity.
Qed.

Lemma read_ev_charger_csv_chargers frame c :
  In c (read_ev_charger_csv frame) ->
  exists row, row_readable row = true /\ charger_from_row row c.
Proof.
  destruct frame as [rows|e]; [|intros []].
  unfold read_ev_charger_csv. cbn [bind].
  pose proof (read_rows_loop rows []) as H.
  destruct (forallb row_readable rows).
  - destruct H as (cs & -> & Hall). cbn [app]. intros Hin.
    clear - Hall Hin. induction Hall as [|row c' rows cs Hrc _ IH].
    + destruct Hin.
    + destruct Hin as [<-|Hin]; eauto.
  - destruct H as [e' ->]. intros [].
Qed.

Lemma from_row_keys row c :
  row_readable row = true -> charger_from_row row c ->
  (exists n, lookup c "charger_name" = Some n)
  /\ (exists t, lookup c "charger_type" = Some t)
  /\ (exists a, lookup c "address" = Some (VStr a)
                /\ normalize_address (VStr a) = Ok a).
Proof.
  unfold row_readable.
  intros Hr (a & (cell & _ & Hcell) & Hn & Ha & Ht & _).
  rewrite Hn, Ht.
  destruct (lookup row "충전소"); [|discriminate].
  destruct (lookup row "주소"); [|discriminate].
  destruct (lookup row "충전기타입"); [|discriminate].
  split; [eauto|]. split; [eauto|].
  exists a. split; [assumption|]. eapply normalize_address_stable; eauto.
Qed.

(** ** Reader and matcher together *)

Lemma for_each_raise {A S : Type} (P : exn -> Prop) (Q : A -> Prop)
    (body : S -> A -> res S) :
  (forall s a e, Q a -> body s a = Raise e -> P e) ->
  forall l s e,
    (forall a, In a l -> Q a) -> for_each l s body = Raise e -> P e.
Proof.
  intros Hstep. induction l as [|a l IH]; simpl; intros s e HQ H.
  - discriminate.
  - destruct (body s a) as [s1|e1] eqn:Hb; cbn [bind] in H.
    + apply (IH s1); auto.
    + inversion H; subst. apply (Hstep s a); auto.
Qed.

Lemma best_lot_keyed pd c e :
  keyed c -> best_lot pd c = Raise e -> e = TypeError.
Proof.
  intros ([n Hn] & _ & a & Ha & Hstable). unfold best_lot.
  rewrite (subscript_lookup _ _ _ Ha). cbn [bind].
  rewrite Hstable. cbn [bind].
  destruct (extract_dong_from_address_ok a) as [cd ->]. cbn [bind].
  destruct (extract_address_number_ok a) as [can ->]. cbn [bind].
  apply (for_each_raise (fun e => e = TypeError) (fun _ => True)); auto.
  intros b [lot_name info] e' _. unfold score_lot.
  rewrite (subscript_lookup _ _ _ Hn). cbn [bind].
  destruct n; cbn [bind]; congruence.
Qed.

Lemma make_entry_keyed c e :
  keyed c -> make_entry c = Raise e -> e = TypeError.
Proof.
  intros ([n Hn] & [t Ht] & _).
  unfold make_entry, classify_charge_type, or_else, py_in.
  rewrite (subscript_lookup _ _ _ Ht), (subscript_lookup _ _ _ Hn).
  cbn [bind].
  destruct t as [ts| |]; cbn [bind]; try congruence.
  destruct (contains ts marker_DC); cbn [bind]; [discriminate|].
  destruct (get c "capacity" (VStr [])) as [cs| |]; cbn [bind];
    try congruence.
  cbn [py_str].
  destruct (contains cs fast_word); cbn [bind]; [discriminate|].
  destruct (contains ts marker_AC); cbn [bind]; [discriminate|].
  destruct (contains cs slow_word); cbn [bind]; discriminate.
Qed.

Lemma match_one_keyed pd m c e :
  keyed c -> match_one pd m c = Raise e -> e = TypeError.
Proof.
  intros Hk. unfold match_one.
  destruct (best_lot pd c) as [[bm bs]|e0] eqn:Hb; cbn [bind fst].
  - destruct bm as [L|]; [|discriminate].
    destruct (truthy (VStr L)); [|discriminate].
    destruct (make_entry c) as [en|e1] eqn:He; cbn [bind].
    + unfold append_entry, dict_mem.
      destruct (dict_get m L) as [v|] eqn:Hg.
      * rewrite Hg. discriminate.
      * rewrite dict_get_set, str_eqb_refl. discriminate.
    + intros H. inversion H; subst. eapply make_entry_keyed; eauto.
  - intros H. inversion H; subst. eapply best_lot_keyed; eauto.
Qed.

Lemma match_keyed cs parking_lots e :
  (forall c, In c cs -> keyed c) ->
  match_charger_to_parking_lot cs parking_lots = Raise e -> e = TypeError.
Proof.
  intros Hk. unfold match_charger_to_parking_lot.
  destruct (build_parking_dict_ok parking_lots) as [pd ->]. cbn [bind].
  apply (for_each_raise (fun e => e = TypeError) keyed); auto.
  intros m c e' Hc. now apply match_one_keyed.
Qed.

(** X15: Chargers that come from the reader carry their address already
    normalised, so the matcher's own normalising changes nothing; the only
    exception they can draw from the matcher is a [TypeError], never a
    [KeyError] or an [AttributeError]; and with text in the name, the type
    code and the capacity of each the matcher returns. *)
Theorem match_on_reader_output
    (frame : res (list charger)) (parking_lots : registry) :
  (forall c, In c (read_ev_charger_csv frame) ->
     exists a,
       subscript c "address" = Ok (VStr a)
       /\ normalize_address (VStr a) = Ok a)
  /\ (forall e,
        match_charger_to_parking_lot (read_ev_charger_csv frame) parking_lots
        = Raise e ->
        e = TypeError)
  /\ ((forall c, In c (read_ev_charger_csv frame) ->
         (exists s, lookup c "charger_name" = Some (VStr s))
         /\ (exists t, lookup c "charger_type" = Some (VStr t))
         /\ (exists u, lookup c "capacity" = Some (VStr u))) ->
      exists m,
        match_charger_to_parking_lot (read_ev_charger_csv frame) parking_lots
        = Ok m).
Proof.
  assert (Hk : forall c, In c (read_ev_charger_csv frame) -> keyed c).
  { intros c Hc.
    destruct (read_ev_charger_csv_chargers _ _ Hc) as (row & Hr & Hrow).
    exact (from_row_keys row c Hr Hrow). }
  split; [|split].
  - intros c Hc. destruct (Hk c Hc) as (_ & _ & a & Ha & Hs).
    exists a. split; [now apply subscript_lookup|assumption].
  - intros e. now apply match_keyed.
  - intros Htext.
    destruct (match_returns_on_text (read_ev_charger_csv frame) parking_lots)
      as (m & Hm & _); [|eauto].
    intros c Hc. destruct (Htext c Hc) as (Hn & Ht & [u Hu]).
    destruct (Hk c Hc) as (_ & _ & a & Ha & _).
    split; [assumption|]. split; [eauto|]. split; [assumption|].
    exists u. unfold get. now rewrite Hu.
Qed.

(** ** The accessors *)

Lemma load_values frame DONGS_DATA L v :
  dict_get (load_ev_charger_data frame DONGS_DATA) L = Some v ->
  L <> [] /\ has_charger v = true /\ chargers v <> []
  /\ exists dong, registered DONGS_DATA L dong.
Proof.
  unfold load_ev_charger_data.
  destruct (match_charger_to_parking_lot (read_ev_charger_csv frame)
              DONGS_DATA) as [m|e] eqn:Hm; [|discriminate].
  intros Hg.
  destruct (match_values_shape _ _ _ Hm _ _ Hg) as (Hne & Hh & Hc).
  repeat (split; [assumption|]).
  eapply match_keys_registered; eauto. eapply dict_key_of_get; eauto.
Qed.

(** X16: On the first call [get_ev_charger_info] loads the data and answers
    from it: what it returns for a lot belongs to a lot of the registry
    with a non-empty name and holds at least one charger, so a name outside
    the registry gets [None]. *)
Theorem get_ev_charger_info_first_call
    (frame : res (list charger)) (DONGS_DATA : registry) (lot_name : str)
    (v : lot_chargers) (EV : dict lot_chargers) :
  get_ev_charger_info frame DONGS_DATA [] lot_name = (Some v, EV) ->
  EV = load_ev_charger_data frame DONGS_DATA
  /\ lot_name <> []
  /\ (exists dong, registered DONGS_DATA lot_name dong)
  /\ has_charger v = true
  /\ chargers v <> [].
Proof.
  unfold get_ev_charger_info. cbn [ensure_loaded]. intros H.
  inversion H as [[Hg HEV]]. split; [reflexivity|].
  destruct (load_values _ _ _ _ Hg) as (Hne & Hh & Hc & Hr). auto.
Qed.

Lemma list_lot_empty dong lot : list_lot [] dong lot = [].
Proof. now destruct lot as [[[[[? ?] ?] ?] ?] ?]. Qed.

Lemma listing_empty (DONGS_DATA : registry) :
  flat_map (fun group => flat_map (list_lot [] (fst group)) (snd group))
    DONGS_DATA = [].
Proof.
  induction DONGS_DATA as [|[dong lots] groups IH]; [reflexivity|].
  cbn [flat_map fst snd]. rewrite IH, app_nil_r.
  induction lots as [|lot lots IHl]; [reflexivity|].
  cbn [flat_map]. now rewrite list_lot_empty, IHl.
Qed.

Lemma load_nothing frame DONGS_DATA :
  read_ev_charger_csv frame = [] ->
  load_ev_charger_data frame DONGS_DATA = [].
Proof.
  intros H. unfold load_ev_charger_data, match_charger_to_parking_lot.
  rewrite H. destruct (build_parking_dict_ok DONGS_DATA) as [pd ->].
  reflexivity.
Qed.

(** X17: When the reader comes back empty (no file, or one unreadable row)
    every accessor reports no charger anywhere, whatever the registry
    says, and leaves [EV_CHARGER_DATA] empty, so the next call reads the
    file again. *)
Theorem accessors_without_feed
    (frame : res (list charger)) (DONGS_DATA : registry)
    (lot_name dong : str) :
  read_ev_charger_csv frame = [] ->
  get_ev_charger_info frame DONGS_DATA [] lot_name = (None, [])
  /\ get_parking_lots_with_chargers frame DONGS_DATA [] = ([], [])
  /\ get_dongs_with_chargers frame DONGS_DATA [] = ([], [])
  /\ get_ev_charger_lots_by_dong frame DONGS_DATA [] dong = ([], []).
Proof.
  intros H. pose proof (load_nothing frame DONGS_DATA H) as Hl.
  unfold get_ev_charger_info, get_dongs_with_chargers,
    get_ev_charger_lots_by_dong, get_parking_lots_with_chargers.
  cbn [ensure_loaded]. rewrite Hl. cbn [ensure_loaded]. rewrite Hl.
  rewrite listing_empty. repeat split.
Qed.

Lemma in_list_lot EV dong lot x :
  In x (list_lot EV dong lot)
  <-> exists info,
        dict_get EV (tuple_name lot) = Some info
        /\ has_charger info = true
        /\ x = listing_of dong lot info.
Proof.
  destruct lot as [[[[[lot_name ts] addr] pt] pr] ci].
  cbn [list_lot tuple_name listing_of].
  destruct (dict_get EV lot_name) as [info|].
  - destruct (has_charger info) eqn:Hh.
    + split.
      * intros [<-|[]]. eauto.
      * intros (i & Hi & _ & ->). inversion Hi; subst. now left.
    + split; [intros []|]. intros (i & Hi & Hhi & _).
      inversion Hi; subst. congruence.
  - split; [intros []|]. intros (i & Hi & _). discriminate.
Qed.

Lemma in_listing EV (DONGS_DATA : registry) x :
  In x (flat_map
          (fun group => flat_map (list_lot EV (fst group)) (snd group))
          DONGS_DATA)
  <-> exists dong lots lot info,
        In (dong, lots) DONGS_DATA /\ In lot lots
        /\ dict_get EV (tuple_name lot) = Some info
        /\ has_charger info = true
        /\ x = listing_of dong lot info.
Proof.
  rewrite in_flat_map. split.
  - intros ([dong lots] & Hg & Hx). cbn [fst snd] in Hx.
    apply in_flat_map in Hx as (lot & Hl & Hx).
    apply in_list_lot in Hx as (info & Hi & Hh & ->).
    exists dong, lots, lot, info. auto.
  - intros (dong & lots & lot & info & Hg & Hl & Hi & Hh & ->).
    exists (dong, lots). split; [assumption|]. cbn [fst snd].
    apply in_flat_map. exists lot. split; [assumption|].
    apply in_list_lot. eauto.
Qed.

Lemma listing_of_fields dong lot info :
  listed_dong_name (listing_of dong lot info) = dong
  /\ listed_lot_name (listing_of dong lot info) = tuple_name lot
  /\ listed_address (listing_of dong lot info) = tuple_address lot
  /\ listed_charger_info (listing_of dong lot info) = info.
Proof. now destruct lot as [[[[[? ?] ?] ?] ?] ?]. Qed.

(** X18: After a first load the list of lots with chargers names exactly the
    lots the matcher attached a charger to, each from its place in the
    registry and with the chargers the data holds for it. *)
Theorem lots_with_chargers_are_the_matched
    (frame : res (list charger)) (DONGS_DATA : registry) :
  let lots := fst (get_parking_lots_with_chargers frame DONGS_DATA []) in
  let EV := load_ev_charger_data frame DONGS_DATA in
  snd (get_parking_lots_with_chargers frame DONGS_DATA []) = EV
  /\ (forall L,
        In L (dict_keys EV) <-> exists x, In x lots /\ listed_lot_name x = L)
  /\ (forall x, In x lots ->
        exists lots' lot,
          In (listed_dong_name x, lots') DONGS_DATA
          /\ In lot lots'
          /\ tuple_name lot = listed_lot_name x
          /\ tuple_address lot = listed_address x
          /\ dict_get EV (listed_lot_name x) = Some (listed_charger_info x)
          /\ chargers (listed_charger_info x) <> []).
Proof.
  cbn zeta. unfold get_parking_lots_with_chargers. cbn [ensure_loaded fst snd].
  split; [reflexivity|]. split.
  - intros L. split.
    + intros HL. destruct (dict_get_of_key _ _ HL) as [v Hv].
      destruct (load_values _ _ _ _ Hv)
        as (_ & Hh & _ & dong & lots & lot & Hg & Hl & Hn).
      exists (listing_of dong lot v). split.
      * apply in_listing. exists dong, lots, lot, v. rewrite Hn. auto.
      * destruct (listing_of_fields dong lot v) as (_ & -> & _). exact Hn.
    + intros (x & Hx & <-).
      apply in_listing in Hx
        as (dong & lots & lot & info & _ & _ & Hi & _ & ->).
      destruct (listing_of_fields dong lot info) as (_ & -> & _).
      eapply dict_key_of_get; eauto.
  - intros x Hx.
    apply in_listing in Hx
      as (dong & lots & lot & info & Hg & Hl & Hi & Hh & ->).
    destruct (listing_of_fields dong lot info) as (-> & -> & -> & ->).
    exists lots, lot. repeat (split; [auto|]).
    now destruct (load_values _ _ _ _ Hi) as (_ & _ & Hc & _).
Qed.

(** ** Sorting the dongs *)

Lemma str_ltb_irrefl a : str_ltb a a = false.
Proof.
  induction a as [|x a IH]; [reflexivity|].
  cbn [str_ltb]. now rewrite N.ltb_irrefl, N.eqb_refl, IH.
Qed.

Lemma str_ltb_total : forall a b,
  str_ltb a b = false -> a <> b -> str_ltb b a = true.
Proof.
  induction a as [|x a IH]; intros [|y b] H Hne; cbn [str_ltb] in *;
    try congruence.
  apply orb_false_iff in H as [Hlt H]. apply N.ltb_ge in Hlt.
  destruct (N.eqb_spec x y) as [->|Hxy].
  - cbn [andb] in H. rewrite N.ltb_irrefl, N.eqb_refl. cbn [orb andb].
    apply IH; [assumption|congruence].
  - assert (Hyx : (y <? x) = true) by (apply N.ltb_lt; lia).
    now rewrite Hyx.
Qed.

Lemma str_ltb_trans : forall a b c,
  str_ltb a b = true -> str_ltb b c = true -> str_ltb a c = true.
Proof.
  induction a as [|x a IH]; intros [|y b] [|z c] Hab Hbc;
    cbn [str_ltb] in *; try congruence.
  apply orb_true_iff in Hab. apply orb_true_iff in Hbc.
  apply orb_true_iff.
  destruct Hab as [Hab|Hab]; destruct Hbc as [Hbc|Hbc];
    try (apply andb_true_iff in Hab as [Hxy Hab]; apply N.eqb_eq in Hxy);
    try (apply andb_true_iff in Hbc as [Hyz Hbc]; apply N.eqb_eq in Hyz);
    try apply N.ltb_lt in Hab; try apply N.ltb_lt in Hbc; subst.
  - left. apply N.ltb_lt. lia.
  - left. now apply N.ltb_lt.
  - left. now apply N.ltb_lt.
  - right. rewrite N.eqb_refl. cbn [andb]. eauto.
Qed.

Lemma insert_sorted_in x l z :
  In z (insert_sorted x l) <-> z = x \/ In z l.
Proof.
  induction l as [|y l IH]; cbn [insert_sorted].
  - simpl. intuition.
  - destruct (str_ltb x y).
    + simpl. intuition.
    + destruct (str_eqb x y) eqn:He.
      * apply str_eqb_eq in He. subst y. simpl. intuition.
      * simpl. rewrite IH. intuition.
Qed.

Lemma insert_sorted_hd x y l :
  HdRel str_lt y l -> str_lt y x -> HdRel str_lt y (insert_sorted x l).
Proof.
  intros Hl Hyx. destruct l as [|z l]; cbn [insert_sorted].
  - now constructor.
  - inversion Hl; subst. destruct (str_ltb x z); [now constructor|].
    destruct (str_eqb x z); now constructor.
Qed.

Lemma insert_sorted_sorted x l :
  Sorted str_lt l -> Sorted str_lt (insert_sorted x l).
Proof.
  induction 1 as [|y l Hs IH Hhd]; cbn [insert_sorted].
  - repeat constructor.
  - destruct (str_ltb x y) eqn:Hlt.
    + constructor; [now constructor|]. now constructor.
    + destruct (str_eqb x y) eqn:He; [now constructor|].
      constructor; [assumption|].
      apply insert_sorted_hd; [assumption|].
      apply str_ltb_total; [assumption|]. now apply str_eqb_neq.
Qed.

Lemma sorted_set_in l z : In z (sorted_set l) <-> In z l.
Proof.
  induction l as [|x l IH]; [reflexivity|].
  cbn [sorted_set fold_right]. fold (sorted_set l).
  rewrite insert_sorted_in, IH. simpl. intuition.
Qed.

Lemma sorted_set_sorted l : Sorted str_lt (sorted_set l).
Proof.
  induction l as [|x l IH]; [constructor|].
  cbn [sorted_set fold_right]. now apply insert_sorted_sorted.
Qed.

Lemma sorted_nodup l : Sorted str_lt l -> NoDup l.
Proof.
  intros H. apply Sorted_StronglySorted in H.
  - induction H as [|x l _ IH Hall]; constructor; [|assumption].
    intros Hin. rewrite Forall_forall in Hall. specialize (Hall _ Hin).
    unfold str_lt in Hall. now rewrite str_ltb_irrefl in Hall.
  - intros a b c. apply str_ltb_trans.
Qed.

Lemma ensure_loaded_twice frame DONGS_DATA EV :
  ensure_loaded frame DONGS_DATA (ensure_loaded frame DONGS_DATA EV)
  = ensure_loaded frame DONGS_DATA EV.
Proof.
  destruct EV as [|p EV]; [|reflexivity]. cbn [ensure_loaded].
  unfold ensure_loaded.
  destruct (load_ev_charger_data frame DONGS_DATA) eqn:Hl; reflexivity.
Qed.

(** X19: The dongs with chargers come out in strictly increasing order, each
    once, and are exactly the dongs of the lots that
    [get_parking_lots_with_chargers] lists. *)
Theorem get_dongs_with_chargers_sorted
    (frame : res (list charger)) (DONGS_DATA : registry)
    (EV : dict lot_chargers) :
  let dongs := fst (get_dongs_with_chargers frame DONGS_DATA EV) in
  let lots := fst (get_parking_lots_with_chargers frame DONGS_DATA EV) in
  Sorted str_lt dongs
  /\ NoDup dongs
  /\ forall d,
       In d dongs <-> exists x, In x lots /\ listed_dong_name x = d.
Proof.
  cbn zeta. unfold get_dongs_with_chargers, get_parking_lots_with_chargers.
  rewrite ensure_loaded_twice. cbn [fst].
  split; [apply sorted_set_sorted|].
  split; [apply sorted_nodup, sorted_set_sorted|].
  intros d. rewrite sorted_set_in, in_map_iff. split.
  - intros (x & Hd & Hx). eauto.
  - intros (x & Hx & Hd). eauto.
Qed.

(** X20: After a first load the lots with chargers of a dong are the lots the
    registry has under that dong and the matcher attached a charger to;
    a dong the registry does not have gets the empty list. *)
Theorem get_ev_charger_lots_by_dong_members
    (frame : res (list charger)) (DONGS_DATA : registry) (dong L : str) :
  In L (fst (get_ev_charger_lots_by_dong frame DONGS_DATA [] dong))
  <-> (exists lots lot,
         In (dong, lots) DONGS_DATA /\ In lot lots /\ tuple_name lot = L)
      /\ In L (dict_keys (load_ev_charger_data frame DONGS_DATA)).
Proof.
  unfold get_ev_charger_lots_by_dong, get_parking_lots_with_chargers.
  rewrite ensure_loaded_twice. cbn [ensure_loaded fst].
  rewrite in_map_iff. split.
  - intros (x & <- & Hx). apply filter_In in Hx as [Hx Hd].
    apply str_eqb_eq in Hd.
    apply in_listing in Hx
      as (dg & lots & lot & info & Hg & Hl & Hi & _ & ->).
    destruct (listing_of_fields dg lot info) as (Hdg & -> & _).
    rewrite Hdg in Hd. subst dg. split; [eauto|].
    eapply dict_key_of_get; eauto.
  - intros ((lots & lot & Hg & Hl & <-) & HL).
    destruct (dict_get_of_key _ _ HL) as [v Hv].
    destruct (load_values _ _ _ _ Hv) as (_ & Hh & _).
    exists (listing_of dong lot v).
    destruct (listing_of_fields dong lot v) as (Hdg & Hn & _).
    split; [assumption|]. apply filter_In. split.
    + apply in_listing. exists dong, lots, lot, v. auto.
    + rewrite Hdg. apply str_eqb_refl.
Qed.

(** ** Empty inputs *)

Lemma best_lot_no_lots c :
  best_lot [] c
  = match lookup c "address" with
    | Some VNaN => Raise AttributeError
    | Some _ => Ok (None, 0%Z)
    | None => Raise KeyError
    end.
Proof.
  unfold best_lot, subscript.
  destruct (lookup c "address") as [[s| |]|]; cbn [bind]; try reflexivity.
  destruct (normalize_address_text s) as [ca ->]. cbn [bind].
  destruct (extract_dong_from_address_ok ca) as [cd ->]. cbn [bind].
  destruct (extract_address_number_ok ca) as [can ->]. reflexivity.
Qed.

(** ** Lot numbers are stable *)

Lemma greedy_exact cls k r : forall x s',
  forallb cls x = true -> k s' = Some r ->
  (forall y s'', y <> [] -> s' = y ++ s'' -> forallb cls y = true ->
                 k s'' = None) ->
  greedy cls k (x ++ s') = Some r.
Proof.
  induction x as [|c x IH]; intros s' Hx Hk Hmax.
  - cbn [app]. destruct s' as [|c s1]; [exact Hk|].
    cbn [greedy]. destruct (cls c) eqn:Hc; [|exact Hk].
    destruct (greedy cls k s1) as [r'|] eqn:Hg; [|exact Hk].
    destruct (greedy_sound _ _ _ _ Hg) as (y & s'' & -> & Hy & Hk').
    rewrite (Hmax (c :: y) s'') in Hk'; [discriminate|discriminate| |].
    + reflexivity.
    + cbn [forallb]. now rewrite Hc, Hy.
  - cbn [app greedy forallb] in *. apply andb_true_iff in Hx as [Hc Hx].
    now rewrite Hc, (IH s' Hx Hk Hmax).
Qed.

Lemma re_search_here p s ms :
  match_here p s = Some ms -> re_search p s = Some ms.
Proof. intros H. destruct s; cbn [re_search]; now rewrite H. Qed.

Lemma match_here_tail_runs s :
  forallb re_hyphen_d s = true ->
  greedy re_hyphen_d (match_here [Mark]) s = Some [[]].
Proof.
  induction s as [|c s IH]; cbn [forallb greedy]; [reflexivity|].
  intros H. apply andb_true_iff in H as [Hc Hs]. now rewrite Hc, (IH Hs).
Qed.

Lemma match_here_digits_runs s :
  forallb re_hyphen_d s = true ->
  greedy re_d (match_here [Many0 re_hyphen_d; Mark]) s = Some [[]].
Proof.
  induction s as [|c s IH]; cbn [forallb greedy]; [reflexivity|].
  intros H. pose proof H as H'. apply andb_true_iff in H as [Hc Hs].
  destruct (re_d c).
  - now rewrite (IH Hs).
  - change (match_here [Many0 re_hyphen_d; Mark] (c :: s))
      with (greedy re_hyphen_d (match_here [Mark]) (c :: s)).
    apply match_here_tail_runs. exact H'.
Qed.

Lemma match_here_designator d ds :
  re_d d = true -> forallb re_hyphen_d ds = true ->
  match_here [Mark; Many1 re_d; Many0 re_hyphen_d; Mark] (d :: ds)
  = Some [d :: ds; []].
Proof.
  intros Hd Hds.
  change (match_here [Mark; Many1 re_d; Many0 re_hyphen_d; Mark] (d :: ds))
    with (option_map (cons (d :: ds))
            (if re_d d
             then greedy re_d (match_here [Many0 re_hyphen_d; Mark]) ds
             else None)).
  now rewrite Hd, (match_here_digits_runs ds Hds).
Qed.

Lemma match_here_spaced_designator d ds :
  isspace space_char = true ->
  (forall c, isdecimal c = true -> isspace c = false) ->
  re_d d = true -> forallb re_hyphen_d ds = true ->
  match_here [Lit dong_char; Mark; Many0 re_s; Mark; Many1 re_d;
              Many0 re_hyphen_d; Mark]
    (dong_char :: space_char :: d :: ds)
  = Some [space_char :: d :: ds; d :: ds; []].
Proof.
  intros Hsp Hdig Hd Hds.
  change (match_here [Lit dong_char; Mark; Many0 re_s; Mark; Many1 re_d;
                      Many0 re_hyphen_d; Mark]
            (dong_char :: space_char :: d :: ds))
    with (if dong_char =? dong_char
          then option_map (cons (space_char :: d :: ds))
                 (greedy re_s
                    (match_here [Mark; Many1 re_d; Many0 re_hyphen_d; Mark])
                    ([space_char] ++ d :: ds))
          else None).
  rewrite N.eqb_refl.
  rewrite (greedy_exact re_s _ [d :: ds; []] [space_char] (d :: ds)).
  - reflexivity.
  - cbn [forallb]. unfold re_s. now rewrite Hsp.
  - now apply match_here_designator.
  - intros y s'' Hy He Hall. destruct y as [|c y]; [contradiction|].
    cbn [app] in He. inversion He; subst c. cbn [forallb] in Hall.
    apply andb_true_iff in Hall as [Hc _]. unfold re_s in Hc.
    unfold re_d in Hd. rewrite (Hdig d Hd) in Hc. discriminate.
Qed.

Lemma match_here_lot_number tok d ds :
  isspace space_char = true ->
  isalnum space_char = false ->
  (forall c, isdecimal c = true -> isspace c = false) ->
  tok <> [] -> forallb re_w tok = true ->
  re_d d = true -> forallb re_hyphen_d ds = true ->
  match_here lot_number_pattern
    (tok ++ dong_char :: space_char :: d :: ds)
  = Some [tok ++ dong_char :: space_char :: d :: ds;
          space_char :: d :: ds; d :: ds; []].
Proof.
  intros Hsp Hal Hdig Hne Hw Hd Hds.
  destruct tok as [|t0 tok]; [contradiction|].
  cbn [forallb] in Hw. apply andb_true_iff in Hw as [Ht0 Hw].
  change (match_here lot_number_pattern
            ((t0 :: tok) ++ dong_char :: space_char :: d :: ds))
    with (option_map
            (cons ((t0 :: tok) ++ dong_char :: space_char :: d :: ds))
            (if re_w t0
             then greedy re_w
                    (match_here [Lit dong_char; Mark; Many0 re_s; Mark;
                                 Many1 re_d; Many0 re_hyphen_d; Mark])
                    (tok ++ dong_char :: space_char :: d :: ds)
             else None)).
  rewrite Ht0.
  rewrite (greedy_exact re_w _ [space_char :: d :: ds; d :: ds; []] tok
             (dong_char :: space_char :: d :: ds)).
  - reflexivity.
  - exact Hw.
  - now apply match_here_spaced_designator.
  - intros y s'' Hy He Hall. destruct y as [|c1 y]; [contradiction|].
    cbn [app] in He. inversion He as [[Hc1 He']]. destruct y as [|c2 y].
    + cbn [app] in He'. subst s''. reflexivity.
    + cbn [app] in He'. inversion He'; subst c2. cbn [forallb] in Hall.
      apply andb_true_iff in Hall as [_ Hall].
      apply andb_true_iff in Hall as [Hc2 _].
      unfold re_w in Hc2. rewrite Hal in Hc2. discriminate.
Qed.

(** X3: A lot number is its own lot number: extracting from the extracted
    text gives that text back.  This holds for tables in which the space
    is white space and no letter or digit, and no digit is white space,
    as in Python's. *)
Theorem extract_address_number_stable (a r : str) :
  isspace space_char = true ->
  isalnum space_char = false ->
  (forall c, isdecimal c = true -> isspace c = false) ->
  extract_address_number (VStr a) = Ok (Some r) ->
  extract_address_number (VStr r) = Ok (Some r).
Proof.
  intros Hsp Hal Hdig H.
  destruct (re_search lot_number_pattern a) as [ms|] eqn:Hs;
    [|rewrite extract_address_number_text, Hs in H; discriminate].
  destruct (extract_address_number_some _ _ Hs)
    as (pre & tok & ws & num & post & Hocc & He & _).
  rewrite He in H. inversion H; subst r; clear H He.
  destruct Hocc as (_ & Htok & Hw & _ & d & ds & -> & Hd & Hds).
  rewrite extract_address_number_text.
  cbn [app].
  rewrite (re_search_here _ _ _
             (match_here_lot_number tok d ds Hsp Hal Hdig Htok Hw Hd Hds)).
  change (tok ++ dong_char :: space_char :: d :: ds)
    with (tok ++ [dong_char] ++ space_char :: d :: ds).
  rewrite (app_assoc tok [dong_char]), between_app.
  replace (between (d :: ds) []) with (d :: ds).
  - now rewrite <- app_assoc.
  - rewrite <- (app_nil_r (d :: ds)) at 2. now rewrite between_app.
Qed.

(** ** The lot number, in full *)

Lemma lot_pattern_unfold s :
  match_here lot_number_pattern s
  = option_map (cons s)
      match s with
      | t :: s' =>
          if re_w t
          then greedy re_w
                 (match_here [Lit dong_char; Mark; Many0 re_s; Mark;
                              Many1 re_d; Many0 re_hyphen_d; Mark]) s'
          else None
      | [] => None
      end.
Proof. reflexivity. Qed.

Lemma lot_pattern_unfold_dong s :
  match_here [Lit dong_char; Mark; Many0 re_s; Mark; Many1 re_d;
              Many0 re_hyphen_d; Mark] s
  = match s with
    | e :: s' =>
        if e =? dong_char
        then option_map (cons s')
               (greedy re_s
                  (match_here [Mark; Many1 re_d; Many0 re_hyphen_d; Mark]) s')
        else None
    | [] => None
    end.
Proof. destruct s; reflexivity. Qed.

Lemma lot_pattern_unfold_digits s :
  match_here [Mark; Many1 re_d; Many0 re_hyphen_d; Mark] s
  = option_map (cons s)
      match s with
      | d :: s' =>
          if re_d d
          then greedy re_d (match_here [Many0 re_hyphen_d; Mark]) s'
          else None
      | [] => None
      end.
Proof. reflexivity. Qed.

Lemma lot_pattern_unfold_tail s :
  match_here [Many0 re_hyphen_d; Mark] s
  = greedy re_hyphen_d (fun s' => Some [s']) s.
Proof. reflexivity. Qed.

Lemma lot_pattern_after_token ws d ds post :
  forallb re_s ws = true -> re_d d = true ->
  forallb re_hyphen_d ds = true ->
  exists r,
    match_here [Lit dong_char; Mark; Many0 re_s; Mark; Many1 re_d;
                Many0 re_hyphen_d; Mark]
      (dong_char :: ws ++ (d :: ds) ++ post) = Some r.
Proof.
  intros Hws Hd Hds. eapply match_here_complete.
  apply (pm_lit dong_char). apply pm_mark. apply pm_many0; [exact Hws|].
  apply pm_mark.
  apply (pm_many1 re_d _ [d] (ds ++ post));
    [discriminate|simpl; now rewrite Hd|].
  apply pm_many0; [exact Hds|]. apply pm_mark. constructor.
Qed.

Lemma lot_pattern_after_space d ds post :
  re_d d = true -> forallb re_hyphen_d ds = true ->
  exists r,
    match_here [Mark; Many1 re_d; Many0 re_hyphen_d; Mark]
      ((d :: ds) ++ post) = Some r.
Proof.
  intros Hd Hds. eapply match_here_complete.
  apply pm_mark.
  apply (pm_many1 re_d _ [d] (ds ++ post));
    [discriminate|simpl; now rewrite Hd|].
  apply pm_many0; [exact Hds|]. apply pm_mark. constructor.
Qed.

(** A match of the lot-number pattern at the start of [s] takes the
    longest token, after it the longest white space and after that the
    longest designator that an occurrence there can have. *)
Lemma match_here_lot_exact s ms :
  match_here lot_number_pattern s = Some ms ->
  exists tok ws num post,
    lot_occurrence s [] tok ws num post
    /\ ms = [s; ws ++ num ++ post; num ++ post; post]
    /\ (forall tok' ws' num' post',
          lot_occurrence s [] tok' ws' num' post' ->
          (length tok' <= length tok)%nat)
    /\ (forall ws' num' post',
          lot_occurrence s [] tok ws' num' post' ->
          (length ws' <= length ws)%nat)
    /\ (forall num' post',
          lot_occurrence s [] tok ws num' post' ->
          (length num' <= length num)%nat).
Proof.
  rewrite lot_pattern_unfold. intros H.
  destruct s as [|t0 s0]; [discriminate|].
  destruct (re_w t0) eqn:Ht0; [|discriminate].
  match type of H with
  | option_map _ ?g = _ => destruct g as [r1|] eqn:Hg1; [|discriminate]
  end.
  cbn [option_map] in H. inversion H; subst ms; clear H.
  destruct (greedy_longest _ _ _ _ Hg1) as (x & s1 & -> & Hx & Hk1 & Hmax1).
  rewrite lot_pattern_unfold_dong in Hk1.
  destruct s1 as [|e s2]; [discriminate|].
  destruct (N.eqb_spec e dong_char) as [->|]; [|discriminate].
  match type of Hk1 with
  | option_map _ ?g = _ => destruct g as [r2|] eqn:Hg2; [|discriminate]
  end.
  cbn [option_map] in Hk1. inversion Hk1; subst r1; clear Hk1.
  destruct (greedy_longest _ _ _ _ Hg2) as (ws & s3 & -> & Hws & Hk2 & Hmax2).
  rewrite lot_pattern_unfold_digits in Hk2.
  destruct s3 as [|d s4]; [discriminate|].
  destruct (re_d d) eqn:Hd; [|discriminate].
  match type of Hk2 with
  | option_map _ ?g = _ => destruct g as [r3|] eqn:Hg3; [|discriminate]
  end.
  cbn [option_map] in Hk2. inversion Hk2; subst r2; clear Hk2.
  destruct (greedy_longest _ _ _ _ Hg3) as (d1 & s5 & -> & Hd1 & Hk3 & _).
  rewrite lot_pattern_unfold_tail in Hk3.
  destruct (greedy_longest _ _ _ _ Hk3)
    as (d2 & post & -> & Hd2 & Hk4 & Hmax4).
  inversion Hk4; subst r3; clear Hk4.
  assert (Hnum : forallb re_hyphen_d (d1 ++ d2) = true).
  { rewrite forallb_app, Hd2, andb_true_r. now apply digits_are_hyphen_d. }
  exists (t0 :: x), ws, (d :: d1 ++ d2), post.
  assert (Hshape : t0 :: x ++ dong_char :: ws ++ d :: d1 ++ d2 ++ post
                   = [] ++ (t0 :: x) ++ [dong_char] ++ ws
                     ++ (d :: d1 ++ d2) ++ post).
  { cbn [app]. now rewrite <- app_assoc. }
  split; [|split; [|split; [|split]]].
  - split; [exact Hshape|]. split; [discriminate|].
    split; [cbn [forallb]; now rewrite Ht0|]. split; [exact Hws|].
    exists d, (d1 ++ d2). auto.
  - cbn [app]. now rewrite <- !app_assoc.
  - intros tok' ws' num' post' (He & Hne & Hw' & Hws' & d' & ds' & -> & Hd' & Hds').
    destruct tok' as [|t' x']; [contradiction|].
    cbn [app] in He. inversion He as [[Ht' He']].
    cbn [forallb] in Hw'. apply andb_true_iff in Hw' as [_ Hx'].
    destruct (Nat.le_gt_cases (length (t' :: x')) (length (t0 :: x)))
      as [|Hlt]; [assumption|].
    exfalso. cbn [length] in Hlt.
    destruct (lot_pattern_after_token ws' d' ds' post' Hws' Hd' Hds')
      as [r Hr].
    assert (Hn := Hmax1 x' _ He' Hx' ltac:(lia)).
    cbn [app] in Hn, Hr. rewrite Hn in Hr. discriminate.
  - intros ws' num' post' (He & _ & _ & Hws' & d' & ds' & -> & Hd' & Hds').
    cbn [app] in He. inversion He as [He'].
    apply app_inv_head in He'. inversion He' as [He''].
    destruct (Nat.le_gt_cases (length ws') (length ws)) as [|Hlt];
      [assumption|].
    exfalso.
    destruct (lot_pattern_after_space d' ds' post' Hd' Hds') as [r Hr].
    assert (Hn := Hmax2 ws' _ He'' Hws' Hlt).
    cbn [app] in Hn, Hr. rewrite Hn in Hr. discriminate.
  - intros num' post' (He & _ & _ & _ & d' & ds' & -> & Hd' & Hds').
    cbn [app] in He. inversion He as [He'].
    apply app_inv_head in He'. inversion He' as [He''].
    apply app_inv_head in He''. inversion He'' as [[Hdd He3]].
    destruct (Nat.le_gt_cases (length (d' :: ds')) (length (d :: d1 ++ d2)))
      as [|Hlt]; [assumption|].
    exfalso. cbn [length] in Hlt.
    rewrite app_assoc in He3.
    apply app_eq_app in He3 as [l [[He4 He5]|[He4 He5]]].
    + (* the other designator is the shorter one *)
      rewrite He4, length_app in Hlt. lia.
    + assert (Hl : l <> []).
      { intros ->. rewrite app_nil_r in He4. subst ds'. lia. }
      subst ds'. rewrite <- app_assoc in Hds'.
      rewrite forallb_app in Hds'. apply andb_true_iff in Hds' as [_ Hds'].
      assert (Hnone : (fun s' : str => Some [s']) post' = None).
      { apply (Hmax4 (d2 ++ l) post').
        - rewrite He5. now rewrite <- app_assoc.
        - exact Hds'.
        - rewrite length_app. destruct l; [contradiction|]. simpl. lia. }
      discriminate.
Qed.

Lemma lot_search_exact a ms :
  re_search lot_number_pattern a = Some ms ->
  exists pre tok ws num post,
    lot_occurrence a pre tok ws num post
    /\ ms = [tok ++ [dong_char] ++ ws ++ num ++ post;
             ws ++ num ++ post; num ++ post; post]
    /\ (forall pre' tok' ws' num' post',
          lot_occurrence a pre' tok' ws' num' post' ->
          (length pre <= length pre')%nat)
    /\ (forall tok' ws' num' post',
          lot_occurrence a pre tok' ws' num' post' ->
          (length tok' <= length tok)%nat)
    /\ (forall ws' num' post',
          lot_occurrence a pre tok ws' num' post' ->
          (length ws' <= length ws)%nat)
    /\ (forall num' post',
          lot_occurrence a pre tok ws num' post' ->
          (length num' <= length num)%nat).
Proof.
  intros H.
  destruct (re_search_some _ _ _ H) as (pre & s' & -> & Hm & Hleft).
  destruct (match_here_lot_exact _ _ Hm)
    as (tok & ws & num & post & Hocc & -> & Htok & Hws & Hnum).
  pose proof Hocc as (Hs' & Hrest). cbn [app] in Hs'.
  assert (Hshift : forall tok' ws' num' post',
             lot_occurrence (pre ++ s') pre tok' ws' num' post' ->
             lot_occurrence s' [] tok' ws' num' post').
  { intros tok' ws' num' post' (He & Hr). split; [|exact Hr].
    apply app_inv_head in He. exact He. }
  exists pre, tok, ws, num, post.
  split; [|split; [|split; [|split; [|split]]]].
  - split; [now rewrite Hs'|exact Hrest].
  - now rewrite Hs' at 1.
  - intros pre' tok' ws' num' post' Hocc'.
    destruct (Nat.le_gt_cases (length pre) (length pre')) as [|Hlt]; auto.
    exfalso. pose proof Hocc' as (Ha & _).
    destruct (lot_occurrence_pm _ _ _ _ _
                (lot_occurrence_shift _ _ _ _ _ _ Hocc')) as [ms' Hpm].
    destruct (match_here_complete _ _ _ Hpm) as [ms'' Hsome].
    rewrite (Hleft pre' _ Ha Hlt) in Hsome. discriminate.
  - intros tok' ws' num' post' Hocc'. eapply Htok. eauto.
  - intros ws' num' post' Hocc'. eapply Hws. eauto.
  - intros num' post' Hocc'. eapply Hnum. eauto.
Qed.

(** C6: the lot number is the dong token and the designator of the leftmost
    occurrence of a dong token, white space that may be empty and a
    designator (a digit followed by digits and hyphens), joined by one
    space; at that place it takes the longest token, then the longest white
    space, then the longest designator that an occurrence can have, which
    fixes the result.  Without an occurrence, and on an empty or absent
    address, the result is absent. *)
Theorem C6_lot_number_of_leftmost_occurrence (a : str) :
  extract_address_number VNone = Ok None
  /\ extract_address_number (VStr []) = Ok None
  /\ (forall r,
        extract_address_number (VStr a) = Ok (Some r) ->
        exists pre tok ws num post,
          lot_occurrence a pre tok ws num post
          /\ r = tok ++ [dong_char] ++ [space_char] ++ num
          /\ (forall pre' tok' ws' num' post',
                lot_occurrence a pre' tok' ws' num' post' ->
                (length pre <= length pre')%nat)
          /\ (forall tok' ws' num' post',
                lot_occurrence a pre tok' ws' num' post' ->
                (length tok' <= length tok)%nat)
          /\ (forall ws' num' post',
                lot_occurrence a pre tok ws' num' post' ->
                (length ws' <= length ws)%nat)
          /\ (forall num' post',
                lot_occurrence a pre tok ws num' post' ->
                (length num' <= length num)%nat))
  /\ (extract_address_number (VStr a) = Ok None <->
      ~ exists pre tok ws num post, lot_occurrence a pre tok ws num post)
  /\ (exists o, extract_address_number (VStr a) = Ok o).
Proof.
  split; [reflexivity|]. split; [reflexivity|].
  destruct (re_search lot_number_pattern a) as [ms|] eqn:Hs.
  - destruct (lot_search_exact _ _ Hs)
      as (pre & tok & ws & num & post & Hocc & Hms & Hleft & Htok & Hws & Hnum).
    assert (He : extract_address_number (VStr a)
                 = Ok (Some (tok ++ [dong_char] ++ [space_char] ++ num))).
    { rewrite extract_address_number_text, Hs, Hms.
      rewrite (app_assoc tok [dong_char]), between_app, between_app.
      now rewrite <- app_assoc. }
    split; [|split].
    + intros r Hr. rewrite He in Hr. inversion Hr; subst.
      exists pre, tok, ws, num, post. auto 10.
    + rewrite He. split; [discriminate|].
      intros Hno. exfalso. apply Hno. eauto 10.
    + eauto.
  - pose proof (lot_search_none _ Hs) as Hno.
    assert (He : extract_address_number (VStr a) = Ok None)
      by now rewrite extract_address_number_text, Hs.
    split; [|split].
    + intros r Hr. rewrite He in Hr. discriminate.
    + rewrite He. split; auto.
    + eauto.
Qed.

(** ** The order of the index *)

Lemma existsb_str_in k l : existsb (str_eqb k) l = true <-> In k l.
Proof.
  rewrite existsb_exists. split.
  - intros (x & Hx & He). apply str_eqb_eq in He. now subst.
  - intros H. exists k. split; [assumption|apply str_eqb_refl].
Qed.

Lemma dict_keys_set_seen {V : Type} (d : dict V) k v :
  dict_keys (dict_set d k v)
  = if existsb (str_eqb k) (dict_keys d) then dict_keys d
    else dict_keys d ++ [k].
Proof.
  destruct (existsb (str_eqb k) (dict_keys d)) eqn:He.
  - apply dict_keys_set_old. now apply existsb_str_in.
  - apply dict_keys_set_new. intros Hin. apply existsb_str_in in Hin.
    congruence.
Qed.

Lemma index_lots_order dong : forall lots d d',
  for_each lots d (index_lot dong) = Ok d' ->
  dict_keys d'
  = fold_left
      (fun seen n => if existsb (str_eqb n) seen then seen else seen ++ [n])
      (map tuple_name lots) (dict_keys d).
Proof.
  induction lots as [|lot lots IH]; intros d d' H; simpl in H.
  - now inversion H.
  - destruct (index_lot_result dong d lot) as (na & num & _ & _ & Hi).
    rewrite Hi in H. cbn [bind] in H. rewrite (IH _ _ H).
    cbn [map fold_left]. now rewrite dict_keys_set_seen.
Qed.

Lemma index_groups_order : forall groups d d',
  for_each groups d
    (fun d group => for_each (snd group) d (index_lot (fst group))) = Ok d' ->
  dict_keys d'
  = fold_left
      (fun seen n => if existsb (str_eqb n) seen then seen else seen ++ [n])
      (registry_names groups) (dict_keys d).
Proof.
  induction groups as [|[dong lots] groups IH]; intros d d' H; simpl in H.
  - now inversion H.
  - destruct (for_each lots d (index_lot dong)) as [d1|] eqn:H1;
      [|discriminate].
    cbn [bind] in H. rewrite (IH _ _ H).
    cbn [registry_names flat_map snd]. rewrite fold_left_app.
    now rewrite (index_lots_order dong lots d d1 H1).
Qed.

Lemma parking_dict_order parking_lots pd :
  build_parking_dict parking_lots = Ok pd ->
  dict_keys pd = first_seen (registry_names parking_lots).
Proof. intros H. exact (index_groups_order parking_lots [] pd H). Qed.

Lemma first_seen_distinct : forall names seen,
  NoDup (seen ++ names) ->
  fold_left
    (fun seen n => if existsb (str_eqb n) seen then seen else seen ++ [n])
    names seen
  = seen ++ names.
Proof.
  induction names as [|n names IH]; intros seen Hnd; cbn [fold_left].
  - now rewrite app_nil_r.
  - assert (Hn : existsb (str_eqb n) seen = false).
    { destruct (existsb (str_eqb n) seen) eqn:He; [|reflexivity].
      apply existsb_str_in in He. apply NoDup_remove_2 in Hnd.
      exfalso. apply Hnd. apply in_app_iff. now left. }
    rewrite Hn, IH; rewrite <- app_assoc; [reflexivity|exact Hnd].
Qed.

(** ** From the best lot to the result *)

Lemma for_each_steps {A S : Type} (body : S -> A -> res S) : forall l s s',
  for_each l s body = Ok s' ->
  forall a, In a l -> exists s1 s2, body s1 a = Ok s2.
Proof.
  induction l as [|a0 l IH]; intros s s' H a Ha; [destruct Ha|].
  cbn [for_each] in H.
  destruct (body s a0) as [s1|] eqn:Hb; [|discriminate].
  cbn [bind] in H. destruct Ha as [<-|Ha]; [eauto|].
  eapply IH; eauto.
Qed.

(** When the run returns, a charger whose best lot has a non-empty name
    stands under that lot. *)
Lemma best_lot_entered cs parking_lots m pd c L s :
  match_charger_to_parking_lot cs parking_lots = Ok m ->
  build_parking_dict parking_lots = Ok pd ->
  In c cs ->
  best_lot pd c = Ok (Some L, s) ->
  L <> [] ->
  exists e, make_entry c = Ok e /\ In e (entries_of m L).
Proof.
  unfold match_charger_to_parking_lot. intros Hm Hpd Hc Hb HL.
  rewrite Hpd in Hm. cbn [bind] in Hm.
  assert (Ht : truthy (VStr L) = true) by (destruct L; [contradiction|auto]).
  destruct (for_each_steps _ _ _ _ Hm c Hc) as (m1 & m2 & H1).
  unfold match_one in H1. rewrite Hb in H1. cbn [bind fst] in H1.
  rewrite Ht in H1.
  destruct (make_entry c) as [e|] eqn:He; [|discriminate].
  exists e. split; [reflexivity|].
  rewrite (match_loop_entries pd cs [] m Hm L). cbn [entries_of dict_get app].
  apply in_flat_map. exists c. split; [assumption|].
  unfold won_entry. rewrite Hb, He, Ht, str_eqb_refl. now left.
Qed.



Lemma best_lot_selected pd c cn ca cd can :
  derived c cn ca cd can ->
  exists b, best_lot pd c = Ok b /\ selected cn ca cd can pd b.
Proof.
  intros Hd. rewrite (best_lot_text pd c cn ca cd can Hd).
  eexists. split; [reflexivity|].
  apply (selected_fold cn ca cd can pd [] (None, 0%Z)).
  left. split; [reflexivity|]. intros ? [].
Qed.


Lemma best_lot_qualifying pd c cn ca cd can it :
  derived c cn ca cd can ->
  In it pd -> (60 <= pair_score cn ca cd can it)%Z ->
  exists L info s,
    best_lot pd c = Ok (Some L, s) /\ wins cn ca cd can pd L info s.
Proof.
  intros Hd Hin Hge.
  destruct (best_lot_selected pd c cn ca cd can Hd) as (b & Hb & Hsel).
  destruct Hsel as [[_ Hall]|(L & info & HL & Hw)].
  - specialize (Hall _ Hin). lia.
  - destruct b as [bm s]. cbn [fst snd] in HL, Hw. subst bm.
    exists L, info, s. auto.
Qed.


(** C4: a lot replaces the running best exactly when its score is at least
    60 and above the running best.  The index lists the lots in the order
    of the registry.  Hence every charger in the result stands under a lot
    that scored at least 60 for it, that no lot beats and that no earlier lot
    equals; and every charger for which some lot reaches 60 is kept, under
    the first of the lots with the highest score (unless that lot has an
    empty name). *)
Theorem C4_threshold_and_first_best
    (cs : list charger) (parking_lots : registry) (m : dict lot_chargers) :
  match_charger_to_parking_lot cs parking_lots = Ok m ->
  (forall cn ca cd can lot_name info b,
     let score := fst (score_pair cn ca cd can lot_name info b) in
     snd (score_pair cn ca cd can lot_name info b)
     = if (60 <=? score)%Z && (snd b <? score)%Z
       then (Some lot_name, score) else b)
  /\ exists pd,
       build_parking_dict parking_lots = Ok pd
       /\ dict_keys pd = first_seen (registry_names parking_lots)
       /\ (NoDup (registry_names parking_lots) ->
           dict_keys pd = registry_names parking_lots)
       /\ (forall L v e,
             dict_get m L = Some v -> In e (chargers v) ->
             exists c cn ca cd can info s,
               In c cs
               /\ derived c cn ca cd can
               /\ make_entry c = Ok e
               /\ (60 <= s)%Z
               /\ exists before after,
                    pd = before ++ (L, info) :: after
                    /\ pair_score cn ca cd can (L, info) = s
                    /\ (forall it, In it before ->
                          (pair_score cn ca cd can it < s)%Z)
                    /\ (forall it, In it after ->
                          (pair_score cn ca cd can it <= s)%Z))
       /\ (forall c cn ca cd can it,
             In c cs -> derived c cn ca cd can ->
             In it pd -> (60 <= pair_score cn ca cd can it)%Z ->
             exists L info s before after,
               best_lot pd c = Ok (Some L, s)
               /\ (60 <= s)%Z
               /\ pd = before ++ (L, info) :: after
               /\ pair_score cn ca cd can (L, info) = s
               /\ (forall it', In it' before ->
                     (pair_score cn ca cd can it' < s)%Z)
               /\ (forall it', In it' after ->
                     (pair_score cn ca cd can it' <= s)%Z)
               /\ (L <> [] ->
                   exists e, make_entry c = Ok e /\ In e (entries_of m L))).
Proof.
  intros Hm. split.
  - intros cn ca cd can lot_name info b score. subst score.
    rewrite score_pair_keep. unfold keep_best. now rewrite andb_comm.
  - destruct (match_traced _ _ _ Hm) as (pd & Hpd & _ & Hent).
    exists pd. split; [exact Hpd|].
    pose proof (parking_dict_order _ _ Hpd) as Hord.
    split; [exact Hord|]. split; [|split].
    + intros Hnd. rewrite Hord. unfold first_seen.
      now rewrite first_seen_distinct.
    + intros L v e Hg Hin.
      destruct (Hent _ _ _ Hg Hin) as (c & s & Hc & Hb & He).
      destruct (best_lot_wins _ _ _ _ Hb)
        as (cn & ca & cd & can & info & Hd & Hw).
      exists c, cn, ca, cd, can, info, s.
      destruct Hw as (bf & af & Hsplit & Hs & Hge & Hbf & Haf).
      repeat (split; [assumption|]). exists bf, af. auto.
    + intros c cn ca cd can it Hc Hd Hin Hge.
      destruct (best_lot_qualifying _ _ _ _ _ _ _ Hd Hin Hge)
        as (L & info & s & Hb & Hw).
      pose proof Hw as (bf & af & Hsplit & Hs & Hges & Hbf & Haf).
      exists L, info, s, bf, af.
      repeat (split; [assumption|]).
      intros HL. eapply best_lot_entered; eauto.
Qed.

(** ** Runs without lots or chargers *)

(** X11: Without chargers the result is empty for every registry.  Without
    lots nothing is matched either: the run returns the empty result when
    every charger has an address cell that is text or [None], and whatever
    it returns is empty; the address is read before the lots are looked at
    (the first charger without the key gives a [KeyError], a first
    float [nan] cell an [AttributeError]), the name and the type code are
    not read at all. *)
Theorem match_empty_inputs (cs : list charger) (parking_lots : registry) :
  match_charger_to_parking_lot [] parking_lots = Ok []
  /\ ((forall c, In c cs ->
         exists v, lookup c "address" = Some v /\ v <> VNaN) ->
      match_charger_to_parking_lot cs [] = Ok [])
  /\ (forall m, match_charger_to_parking_lot cs [] = Ok m -> m = [])
  /\ (forall earlier c later,
        cs = earlier ++ c :: later ->
        (forall c', In c' earlier ->
           exists v, lookup c' "address" = Some v /\ v <> VNaN) ->
        (lookup c "address" = None ->
         match_charger_to_parking_lot cs [] = Raise KeyError)
        /\ (lookup c "address" = Some VNaN ->
            match_charger_to_parking_lot cs [] = Raise AttributeError)).
Proof.
  split.
  { unfold match_charger_to_parking_lot.
    now destruct (build_parking_dict_ok parking_lots) as [pd ->]. }
  unfold match_charger_to_parking_lot. cbn [build_parking_dict for_each bind].
  assert (Hstep : forall c m,
             match_one [] m c
             = match lookup c "address" with
               | Some VNaN => Raise AttributeError
               | Some _ => Ok m
               | None => Raise KeyError
               end).
  { intros c m. unfold match_one. rewrite best_lot_no_lots.
    now destruct (lookup c "address") as [[s| |]|]. }
  assert (Hgood : forall l,
             (forall c, In c l ->
                exists v, lookup c "address" = Some v /\ v <> VNaN) ->
             for_each l [] (match_one []) = Ok []).
  { induction l as [|c l IH]; intros Hl; cbn [for_each]; [reflexivity|].
    rewrite Hstep.
    destruct (Hl c (or_introl eq_refl)) as (v & Hv & Hne). rewrite Hv.
    destruct v as [s| |]; [| |congruence]; cbn [bind]; apply IH;
      intros c' Hc'; apply Hl; now right. }
  split; [exact (Hgood cs)|]. split.
  - induction cs as [|c cs IH]; cbn [for_each]; intros m H.
    + now inversion H.
    + rewrite Hstep in H.
      destruct (lookup c "address") as [[s| |]|]; cbn [bind] in H;
        try discriminate; auto.
  - intros earlier c later -> Hearlier.
    rewrite for_each_app, (Hgood earlier Hearlier). cbn [bind for_each].
    rewrite Hstep. split; intros ->; reflexivity.
Qed.

End Matching.

(** * The statements on the sample data *)

Example extract_address_number_sample :
  extract_address_number kr_isalnum kr_isdecimal kr_isspace
    (VStr (u "전남 순천시 조례동 1866, 호수공원 옆"))
  = Ok (Some (u "조례동 1866")).
Proof. reflexivity. Qed.

Example extract_address_number_trailing_hyphen :
  extract_address_number kr_isalnum kr_isdecimal kr_isspace
    (VStr (u "동외동 100- 1"))
  = Ok (Some (u "동외동 100-")).
Proof. reflexivity. Qed.

Example extract_dong_sample :
  extract_dong_from_address kr_isalnum (VStr (u "전남 순천시 동외동 83"))
  = Ok (Some (u "동외동")).
Proof. reflexivity. Qed.

Example extract_dong_street_only :
  extract_dong_from_address kr_isalnum (VStr (u "전남 순천시 팔마로 333"))
  = Ok None.
Proof. reflexivity. Qed.

Example keywords_sample :
  lot_name_keywords kr_isspace sumaegol = [u "수매골"].
Proof. reflexivity. Qed.

Example build_parking_dict_sample :
  build_parking_dict kr_isalnum kr_isdecimal kr_isspace sample_lots
  = Ok [(sumaegol, sumaegol_info); (pool_lot, pool_info);
        (u "문화센터 주차장",
         {| dong_name := u "석현동";
            address := u "전남 순천시 석현동 35-6";
            address_number := Some (u "석현동 35-6") |})].
Proof. reflexivity. Qed.

Lemma C1_witness :
  subscript charger_sumaegol "charger_type" = Ok (VStr (u "DC콤보"))
  /\ get charger_sumaegol "capacity" (VStr []) = VStr (u "급속(50kW)")
  /\ exists e, make_entry charger_sumaegol = Ok e /\ charge_type e = fast_word.
Proof.
  split; [reflexivity|]. split; [reflexivity|].
  exact (C1_charge_type_from_type_and_capacity charger_sumaegol
           (u "DC콤보") (u "급속(50kW)") (VStr (u "수매골 공영주차장 충전소"))
           eq_refl eq_refl eq_refl).
Defined.

(** The slow keyword in the availability time alone does not make the
    charger slow, as the wording of the specification would have it. *)
Lemma C1_counterexample :
  exists e,
    make_entry charger_hint_in_time = Ok e
    /\ charge_type e = fast_word
    /\ spec_charge_type (u "B타입(5핀)") (u "7kW") (u "24시간 이용가능(완속)")
       = slow_word
    /\ charge_type e
       <> spec_charge_type (u "B타입(5핀)") (u "7kW")
            (u "24시간 이용가능(완속)").
Proof.
  eexists. split; [reflexivity|]. split; [reflexivity|].
  split; [reflexivity|]. discriminate.
Qed.

Lemma C2_witness :
  contains pool_lot culture_health = true
  /\ contains (u "순천시문화건강센터") culture_health = true
  /\ dong_differs None (dong_name pool_info) = true
  /\ score_pair kr_isspace (u "순천시문화건강센터")
       (u "전남 순천시 팔마로 333 수영장") None None pool_lot pool_info
       (None, 0%Z)
     = (70%Z, (Some pool_lot, 70%Z)).
Proof.
  split; [reflexivity|]. split; [reflexivity|]. split; [reflexivity|].
  exact (proj1 (C2_special_case_pair kr_isspace (u "순천시문화건강센터")
                  (u "전남 순천시 팔마로 333 수영장") None None pool_lot
                  pool_info (None, 0%Z) eq_refl eq_refl eq_refl) eq_refl).
Defined.

Lemma C3_witness :
  extract_address_number kr_isalnum kr_isdecimal kr_isspace
    (VStr (u "전남 순천시 조례동  1807")) = Ok (Some (u "조례동 1807"))
  /\ dong_differs (Some (u "조례동")) (dong_name sumaegol_info) = false
  /\ address sumaegol_info <> u "전남 순천시 조례동  1807"
  /\ fst (score_pair kr_isspace (u "수매골 충전소")
            (u "전남 순천시 조례동  1807") (Some (u "조례동"))
            (Some (u "조례동 1807")) sumaegol sumaegol_info (None, 0%Z))
     = 80%Z.
Proof.
  split; [reflexivity|]. split; [reflexivity|]. split; [discriminate|].
  apply (C3_lot_number_pair kr_isspace (u "수매골 충전소")
           (u "전남 순천시 조례동  1807") (Some (u "조례동")) sumaegol
           sumaegol_info (u "조례동 1807") (None, 0%Z)).
  - reflexivity.
  - discriminate.
  - reflexivity.
  - discriminate.
  - reflexivity.
Defined.

(** With the usual single space the lot's number also occurs in the
    charger's address and the pair scores 140, not 80. *)
Lemma C3_counterexample :
  extract_dong_from_address kr_isalnum
    (VStr (u "전남 순천시 조례동 1807 지상")) = Ok (Some (u "조례동"))
  /\ extract_address_number kr_isalnum kr_isdecimal kr_isspace
       (VStr (u "전남 순천시 조례동 1807 지상")) = Ok (Some (u "조례동 1807"))
  /\ address_number sumaegol_info = Some (u "조례동 1807")
  /\ dong_differs (Some (u "조례동")) (dong_name sumaegol_info) = false
  /\ address sumaegol_info <> u "전남 순천시 조례동 1807 지상"
  /\ name_in_charger sumaegol (u "수매골 충전소")
     || keyword_test kr_isspace sumaegol (u "수매골 충전소") = true
  /\ fst (score_pair kr_isspace (u "수매골 충전소")
            (u "전남 순천시 조례동 1807 지상") (Some (u "조례동"))
            (Some (u "조례동 1807")) sumaegol sumaegol_info (None, 0%Z))
     = 140%Z
  /\ 140%Z <> 80%Z.
Proof.
  repeat (split; [reflexivity|]).
  split; [discriminate|]. repeat (split; [reflexivity|]). discriminate.
Qed.


Lemma C8_witness :
  exists m,
    match_charger_to_parking_lot kr_isalnum kr_isdecimal kr_isspace
      [charger_sumaegol] sample_lots = Ok m
    /\ In sumaegol (dict_keys m)
    /\ exists dong lots lot,
         In (dong, lots) sample_lots /\ In lot lots
         /\ tuple_name lot = sumaegol.
Proof.
  eexists.
  split; [lazy; reflexivity|]. split; [left; reflexivity|].
  eapply (C8_registry_closure kr_isalnum kr_isdecimal kr_isspace
            [charger_sumaegol] sample_lots _ sumaegol).
  - lazy; reflexivity.
  - left; reflexivity.
Defined.

(** C9: a matched charger whose capacity cell is empty in the feed makes
    the run raise, although the text version of the capacity is tested right
    after, and so does a matched record without a type code, although the
    capacity next to it is read with a default; with text in both places
    the same charger is matched. *)
Theorem C9_empty_capacity_raises :
  match_charger_to_parking_lot kr_isalnum kr_isdecimal kr_isspace
    [charger_empty_capacity] sample_lots = Raise TypeError
  /\ best_lot kr_isalnum kr_isdecimal kr_isspace
       [(sumaegol, sumaegol_info); (pool_lot, pool_info);
        (u "문화센터 주차장",
         {| dong_name := u "석현동";
            address := u "전남 순천시 석현동 35-6";
            address_number := Some (u "석현동 35-6") |})]
       charger_empty_capacity
     = Ok (Some sumaegol, 160%Z)
  /\ match_charger_to_parking_lot kr_isalnum kr_isdecimal kr_isspace
       [charger_without_type] sample_lots = Raise KeyError
  /\ exists m,
       match_charger_to_parking_lot kr_isalnum kr_isdecimal kr_isspace
         [charger_sumaegol] sample_lots = Ok m.
Proof.
  split; [reflexivity|]. split; [reflexivity|]. split; [reflexivity|].
  eexists. reflexivity.
Qed.

(** * The further statements on the sample data *)

Lemma lot_number_implies_dong_witness :
  extract_address_number kr_isalnum kr_isdecimal kr_isspace
    (VStr (u "전남 순천시 조례동 1807")) = Ok (Some (u "조례동 1807"))
  /\ u "조례동 1807" <> []
  /\ exists d,
       extract_dong_from_address kr_isalnum
         (VStr (u "전남 순천시 조례동 1807")) = Ok (Some d).
Proof.
  split; [reflexivity|].
  exact (lot_number_implies_dong kr_isalnum kr_isdecimal kr_isspace
           (u "전남 순천시 조례동 1807") (u "조례동 1807") eq_refl).
Defined.

Lemma normalize_address_rewrites_prefix_witness :
  contains (u " 순천시 조례1길 24") long_province = false
  /\ normalize_address (VStr (u "전라남도 순천시 조례1길 24"))
     = Ok (u "전남 순천시 조례1길 24").
Proof.
  split; [reflexivity|].
  exact (normalize_address_rewrites_prefix (u " 순천시 조례1길 24") eq_refl).
Defined.

Lemma match_result_shape_witness :
  exists m,
    match_charger_to_parking_lot kr_isalnum kr_isdecimal kr_isspace
      [charger_sumaegol] sample_lots = Ok m
    /\ In sumaegol (dict_keys m)
    /\ sumaegol <> []
    /\ exists v,
         dict_get m sumaegol = Some v
         /\ has_charger v = true /\ chargers v <> [].
Proof.
  eexists.
  split; [lazy; reflexivity|]. split; [left; reflexivity|].
  eapply (match_result_shape kr_isalnum kr_isdecimal kr_isspace
            [charger_sumaegol] sample_lots _ sumaegol).
  - lazy; reflexivity.
  - left; reflexivity.
Defined.


Lemma parking_dict_last_write_wins_witness :
  exists pd,
    build_parking_dict kr_isalnum kr_isdecimal kr_isspace
      ([] ++ (u "조례동",
              [(u "수매골 공영주차장", 54%Z, u "전남 순천시 조례동 1807",
                u "무료", u "무료", u "🔌O(급속 1개)")]
              ++ sumaegol_again :: [])
          :: [(u "석현동",
               [(u "문화센터 주차장", 89%Z, u "전남 순천시 석현동 35-6",
                 u "유료", u "30분당 500원", u "🔌X")])])
    = Ok pd
    /\ dict_get pd sumaegol
       = Some {| dong_name := u "조례동";
                 address := u "전남 순천시 조례동 1810-2";
                 address_number := Some (u "조례동 1810-2") |}.
Proof.
  eexists. split; [lazy; reflexivity|].
  destruct (parking_dict_last_write_wins kr_isalnum kr_isdecimal kr_isspace
              [] [(u "석현동",
                   [(u "문화센터 주차장", 89%Z, u "전남 순천시 석현동 35-6",
                     u "유료", u "30분당 500원", u "🔌X")])]
              (u "조례동")
              [(u "수매골 공영주차장", 54%Z, u "전남 순천시 조례동 1807",
                u "무료", u "무료", u "🔌O(급속 1개)")]
              [] sumaegol_again _ eq_refl)
    as (na & num & Hna & Hnum & Hg).
  - intros l [].
  - intros g l [<-|[]] [<-|[]]. discriminate.
  - vm_compute in Hna. inversion Hna; subst na.
    vm_compute in Hnum. inversion Hnum; subst num.
    exact Hg.
Defined.

Lemma get_ev_charger_info_first_call_witness :
  exists v EV,
    get_ev_charger_info kr_isalnum kr_isdecimal kr_isspace
      (Ok [sample_row]) sample_lots [] sumaegol = (Some v, EV)
    /\ EV = load_ev_charger_data kr_isalnum kr_isdecimal kr_isspace
              (Ok [sample_row]) sample_lots
    /\ sumaegol <> []
    /\ (exists dong, registered sample_lots sumaegol dong)
    /\ has_charger v = true
    /\ chargers v <> [].
Proof.
  do 2 eexists. split; [lazy; reflexivity|].
  eapply (get_ev_charger_info_first_call kr_isalnum kr_isdecimal kr_isspace
            (Ok [sample_row]) sample_lots sumaegol).
  lazy; reflexivity.
Defined.

Lemma accessors_without_feed_witness :
  read_ev_charger_csv (Ok [sample_row; sample_row_without_address]) = []
  /\ get_ev_charger_info kr_isalnum kr_isdecimal kr_isspace
       (Ok [sample_row; sample_row_without_address]) sample_lots []
       sumaegol = (None, [])
  /\ get_parking_lots_with_chargers kr_isalnum kr_isdecimal kr_isspace
       (Ok [sample_row; sample_row_without_address]) sample_lots []
     = ([], [])
  /\ get_dongs_with_chargers kr_isalnum kr_isdecimal kr_isspace
       (Ok [sample_row; sample_row_without_address]) sample_lots []
     = ([], [])
  /\ get_ev_charger_lots_by_dong kr_isalnum kr_isdecimal kr_isspace
       (Ok [sample_row; sample_row_without_address]) sample_lots []
       (u "조례동")
     = ([], []).
Proof.
  split; [reflexivity|].
  exact (accessors_without_feed kr_isalnum kr_isdecimal kr_isspace
           (Ok [sample_row; sample_row_without_address]) sample_lots
           sumaegol (u "조례동") eq_refl).
Defined.

Example load_sample :
  get_dongs_with_chargers kr_isalnum kr_isdecimal kr_isspace
    (Ok [sample_row]) sample_lots []
  = ([u "조례동"],
     [(sumaegol,
       {| has_charger := true;
          chargers :=
            [{| charger_name := VStr (u "수매골 공영주차장 충전소");
                charge_type := fast_word;
                is_available := true;
                cost := free_word;
                capacity := VStr (u "급속(50kW)");
                available_time := VStr (u "24시간 이용가능");
                facility_type := VStr (u "공영주차장");
                convenience := VStr [] |}] |})]).
Proof. reflexivity. Qed.

Lemma kr_digits_are_not_space (c : char) :
  kr_isdecimal c = true -> kr_isspace c = false.
Proof.
  unfold kr_isdecimal, kr_isspace. intros H.
  apply andb_true_iff in H as [Hlo Hhi].
  apply N.leb_le in Hlo. apply N.leb_le in Hhi. cbn [existsb].
  replace (c <=? 13) with false by (symmetry; apply N.leb_gt; lia).
  replace (c <=? 32) with false by (symmetry; apply N.leb_gt; lia).
  replace (0x2000 <=? c) with false by (symmetry; apply N.leb_gt; lia).
  replace (c =? 0x85) with false by (symmetry; apply N.eqb_neq; lia).
  replace (c =? 0xA0) with false by (symmetry; apply N.eqb_neq; lia).
  replace (c =? 0x1680) with false by (symmetry; apply N.eqb_neq; lia).
  replace (c =? 0x2028) with false by (symmetry; apply N.eqb_neq; lia).
  replace (c =? 0x2029) with false by (symmetry; apply N.eqb_neq; lia).
  replace (c =? 0x202F) with false by (symmetry; apply N.eqb_neq; lia).
  replace (c =? 0x205F) with false by (symmetry; apply N.eqb_neq; lia).
  replace (c =? 0x3000) with false by (symmetry; apply N.eqb_neq; lia).
  now rewrite !andb_false_r.
Defined.

Lemma extract_address_number_stable_witness :
  kr_isspace space_char = true
  /\ kr_isalnum space_char = false
  /\ extract_address_number kr_isalnum kr_isdecimal kr_isspace
       (VStr (u "전남 순천시 조례동1807-3, 지상")) = Ok (Some (u "조례동 1807-3"))
  /\ extract_address_number kr_isalnum kr_isdecimal kr_isspace
       (VStr (u "조례동 1807-3")) = Ok (Some (u "조례동 1807-3")).
Proof.
  split; [reflexivity|]. split; [reflexivity|]. split; [reflexivity|].
  exact (extract_address_number_stable kr_isalnum kr_isdecimal kr_isspace
           (u "전남 순천시 조례동1807-3, 지상") (u "조례동 1807-3")
           eq_refl eq_refl kr_digits_are_not_space eq_refl).
Defined.

(** * Ties, unspaced lot numbers and qualifying lots on the sample data *)

(** Two lots at one address score 160 each; the first of the registry
    keeps the charger. *)
Lemma C4_witness :
  exists m,
    match_charger_to_parking_lot kr_isalnum kr_isdecimal kr_isspace
      [charger_tie] tie_lots = Ok m
    /\ pair_score kr_isspace (u "연향동 충전소") (u "전남 순천시 연향동 1423")
         (Some (u "연향동")) (Some (u "연향동 1423"))
         (yeonhyang2, yeonhyang_info) = 160%Z
    /\ pair_score kr_isspace (u "연향동 충전소") (u "전남 순천시 연향동 1423")
         (Some (u "연향동")) (Some (u "연향동 1423"))
         (yeonhyang3, yeonhyang_info) = 160%Z
    /\ exists pd,
         build_parking_dict kr_isalnum kr_isdecimal kr_isspace tie_lots
         = Ok pd
         /\ dict_keys pd = [yeonhyang2; yeonhyang3]
         /\ exists info s before after,
              best_lot kr_isalnum kr_isdecimal kr_isspace pd charger_tie
              = Ok (Some yeonhyang2, s)
              /\ (60 <= s)%Z
              /\ pd = before ++ (yeonhyang2, info) :: after
              /\ (forall it', In it' before ->
                    (pair_score kr_isspace (u "연향동 충전소")
                       (u "전남 순천시 연향동 1423") (Some (u "연향동"))
                       (Some (u "연향동 1423")) it' < s)%Z)
              /\ (exists e,
                    make_entry charger_tie = Ok e
                    /\ In e (entries_of m yeonhyang2))
              /\ entries_of m yeonhyang3 = [].
Proof.
  eexists. split; [lazy; reflexivity|].
  split; [reflexivity|]. split; [reflexivity|].
  destruct (C4_threshold_and_first_best kr_isalnum kr_isdecimal kr_isspace
              [charger_tie] tie_lots _ eq_refl)
    as [_ (pd & Hpd & Hord & _ & _ & Hfw)].
  exists pd. split; [exact Hpd|]. split; [rewrite Hord; reflexivity|].
  vm_compute in Hpd. inversion Hpd; subst pd; clear Hpd.
  destruct (Hfw charger_tie (u "연향동 충전소") (u "전남 순천시 연향동 1423")
              (Some (u "연향동")) (Some (u "연향동 1423"))
              (yeonhyang2, yeonhyang_info))
    as (L & info & s & bf & af & Hb & Hge & Hsplit & Hs & Hbf & Haf & Hin).
  - now left.
  - split; [reflexivity|]. eexists. repeat split; reflexivity.
  - now left.
  - vm_compute. discriminate.
  - vm_compute in Hb. clear Hs. inversion Hb; subst L s.
    exists info, 160%Z, bf, af.
    split; [reflexivity|]. split; [exact Hge|]. split; [exact Hsplit|].
    split; [exact Hbf|]. split; [apply Hin; discriminate|reflexivity].
Defined.

(** An address without any white space still yields a lot number, and a
    hyphen at the end of the digits is part of the designator. *)
Lemma C6_counterexample :
  (extract_address_number kr_isalnum kr_isdecimal kr_isspace
     (VStr (u "조례동1807")) = Ok (Some (u "조례동 1807"))
   /\ ~ exists pre tok ws num post,
          spaced_lot_occurrence kr_isalnum kr_isdecimal kr_isspace
            (u "조례동1807") pre tok ws num post)
  /\ (extract_address_number kr_isalnum kr_isdecimal kr_isspace
        (VStr (u "동외동 100- 1")) = Ok (Some (u "동외동 100-"))
      /\ u "동외동 100-" = u "동외동" ++ [space_char] ++ u "100-"
      /\ spec_designator kr_isdecimal (u "100-") = false
      /\ spec_designator kr_isdecimal (u "100") = true
      /\ u "동외동 100-" <> u "동외동 100").
Proof.
  split.
  - split; [reflexivity|].
    intros (pre & tok & ws & num & post & (Ha & _ & _ & Hws & _) & Hne).
    destruct ws as [|w ws]; [contradiction|].
    simpl in Hws. apply andb_true_iff in Hws as [Hw _].
    assert (Hin : In w (u "조례동1807")).
    { rewrite Ha. apply in_app_iff. right. apply in_app_iff. right.
      right. now left. }
    assert (Hall : forallb (fun c => negb (kr_isspace c)) (u "조례동1807")
                   = true) by reflexivity.
    rewrite forallb_forall in Hall. specialize (Hall _ Hin).
    unfold re_s in Hw. rewrite Hw in Hall. discriminate.
  - repeat (split; [reflexivity|]). discriminate.
Qed.

